(** * Christmas-Tree-Touch: the particle scene (components/Scene.tsx)

    A shallow embedding of the [Particle] class and of the object
    generation of the [Scene] component, and the properties the
    specification states about them.

    Numbers.  A JavaScript [number] is modelled by a real number of the
    Standard Library ([R]): [Math.sin], [Math.cos], [Math.acos] and
    [Math.PI] are [sin], [cos], [acos] and [PI].  Rounding is not
    modelled there: a statement about [R] is about exact arithmetic.
    Where the source meets a bound only up to rounding, the statement
    leaves a tolerance of [1e-9]; the coordinates of the scene stay
    below 100, where two neighbouring doubles are [1.5e-14] apart.  The
    module [Binary64] repeats the two scatter rules on binary64 numbers
    and shows which vectors the source stores.

    Randomness.  [Math.random()] is a draw from an arbitrary sequence
    [rnd : nat -> R]; a cursor in the scene state counts the draws made
    so far, so that the order of the calls in the source is the order of
    the draws in the model.

    three.js.  [Vector3], [Euler], [Mesh] and the materials belong to the
    rendering library.  Only the members the component calls are
    modelled, with the behaviour three.js documents for them. *)

From Stdlib Require Import Reals Lra Lia List ZArith Bool.
From Stdlib Require Floats QArith Qreals Qreduction.
Import ListNotations.

Local Open Scope R_scope.

#[local] Set Warnings "-abstract-large-number".

(** ** three.js vectors *)

Module Vector3.

Record t : Type := mk { x : R; y : R; z : R }.

(** [new THREE.Vector3()] *)
Definition zero : t := mk 0 0 0.

(** [this.copy(v)]: the three coordinates of [v] are stored into [this];
    the result is the new content of [this]. *)
Definition copy (this v : t) : t := mk (x v) (y v) (z v).

(** [this.set(a, b, c)] *)
Definition set (this : t) (a b c : R) : t := mk a b c.

(** [this.setScalar(s)] *)
Definition setScalar (this : t) (s : R) : t := mk s s s.

(** [this.lerp(v, alpha)]:
    [this.x += (v.x - this.x) * alpha], and the same for [y] and [z]. *)
Definition lerp (this v : t) (alpha : R) : t :=
  mk (x this + (x v - x this) * alpha)
     (y this + (y v - y this) * alpha)
     (z this + (z v - z this) * alpha).

(** [this.length()] *)
Definition length (v : t) : R :=
  sqrt (x v * x v + y v * y v + z v * z v).

(** [this.distanceToSquared(v)] *)
Definition distanceToSquared (this v : t) : R :=
  let dx := x this - x v in
  let dy := y this - y v in
  let dz := z this - z v in
  dx * dx + dy * dy + dz * dz.

(** [this.distanceTo(v)] *)
Definition distanceTo (this v : t) : R :=
  sqrt (distanceToSquared this v).

End Vector3.

Abbreviation Vec3 := Vector3.t.

(** ** Materials

    The materials are created once and shared by the meshes that use
    them, so a write to [material.emissiveIntensity] is a write to a store
    indexed by the material, seen by every mesh of that material. *)

Inductive MaterialId : Type :=
  | matLeafDark | matLeafMid | matLeafBright
  | matTrunk
  | matGold | matRed | matSilver
  | matLightWarm | matLightColor
  | matSnow | matStar.

Definition MaterialId_eq_dec (a b : MaterialId) : {a = b} + {a <> b}.
Proof. decide equality. Defined.

(** [material.color], as the hexadecimal literal of the source. *)
Definition materialColor (m : MaterialId) : Z :=
  match m with
  | matLeafDark => 0x1a472a
  | matLeafMid => 0x2e7d32
  | matLeafBright => 0x4caf50
  | matTrunk => 0x4e342e
  | matGold => 0xffd700
  | matRed => 0xd32f2f
  | matSilver => 0xe0e0e0
  | matLightWarm => 0xffffee
  | matLightColor => 0xffcccc
  | matSnow => 0xffffff
  | matStar => 0xffffee
  end%Z.

(** The [emissiveIntensity] property of every material.  A
    [MeshStandardMaterial] has it from its construction (1 when the
    parameters do not give it); a [MeshBasicMaterial] ([matSnow],
    [matStar]) has no such property until something assigns it. *)
Definition MaterialStore : Type := MaterialId -> option R.

Definition initialMaterials : MaterialStore := fun m =>
  match m with
  | matLeafDark => Some 1
  | matLeafMid => Some 1
  | matLeafBright => Some 0.2
  | matTrunk => Some 1
  | matGold => Some 0.4
  | matRed => Some 0.3
  | matSilver => Some 0.3
  | matLightWarm => Some 2.0
  | matLightColor => Some 2.0
  | matSnow => None
  | matStar => None
  end.

(** [material.emissiveIntensity = v] *)
Definition setEmissiveIntensity (ms : MaterialStore) (m : MaterialId) (v : R)
  : MaterialStore :=
  fun m' => if MaterialId_eq_dec m' m then Some v else ms m'.

(** ** Meshes *)

Record Mesh : Type := mkMesh {
  position : Vec3;
  rotation : Vec3;      (* the x, y, z angles of the Euler rotation *)
  scale : Vec3;
  material : MaterialId
}.

(** [new THREE.Mesh(geometry, material)]: at the origin, not rotated, of
    scale 1.  The geometry plays no part in what follows. *)
Definition newMesh (m : MaterialId) : Mesh :=
  mkMesh Vector3.zero Vector3.zero (Vector3.mk 1 1 1) m.

Definition withPosition (m : Mesh) (v : Vec3) : Mesh :=
  mkMesh v (rotation m) (scale m) (material m).
Definition withRotation (m : Mesh) (v : Vec3) : Mesh :=
  mkMesh (position m) v (scale m) (material m).
Definition withScale (m : Mesh) (v : Vec3) : Mesh :=
  mkMesh (position m) (rotation m) v (material m).

(** ** The Particle class *)

Inductive ParticleType : Type :=
  | leaf | ornament | light | star | snow | trunk.

Definition ParticleType_eq_dec (a b : ParticleType) : {a = b} + {a <> b}.
Proof. decide equality. Defined.

Definition ParticleType_eqb (a b : ParticleType) : bool :=
  if ParticleType_eq_dec a b then true else false.

Record Particle : Type := mkParticle {
  mesh : Mesh;
  posTree : Vec3;
  posScatter : Vec3;
  initialScale : R;
  rotationSpeed : Vec3;
  phase : R;
  type : ParticleType;
  baseColor : Z
}.

Definition withMesh (p : Particle) (m : Mesh) : Particle :=
  mkParticle m (posTree p) (posScatter p) (initialScale p)
             (rotationSpeed p) (phase p) (type p) (baseColor p).

(** *** Particle.update *)

(** [const target = isTreeMode ? this.posTree : this.posScatter] *)
Definition target (p : Particle) (isTreeMode : bool) : Vec3 :=
  if isTreeMode then posTree p else posScatter p.

(** The four statements on [speed], in their order. *)
Definition speed (ty : ParticleType) (isTreeMode : bool) : R :=
  let speed := 2.0 in
  let speed := if ParticleType_eqb ty ornament then 1.8 else speed in
  let speed := if ParticleType_eqb ty leaf then 2.2 else speed in
  let speed := if negb isTreeMode then 1.5 else speed in
  speed.

(** [Math.sin(time * 3 + this.phase) * 0.5 + 0.5] *)
Definition blink (p : Particle) (time : R) : R :=
  sin (time * 3 + phase p) * 0.5 + 0.5.

(** [Math.sin(time * 2) * 0.2 + 1.0] *)
Definition pulse (time : R) : R := sin (time * 2) * 0.2 + 1.0.

(** [update(dt, isTreeMode, time)].  The method writes to the particle's
    own mesh and, for a light or the star, to the material of that mesh;
    it returns the particle and the material store after the call. *)
Definition update (p : Particle) (dt : R) (isTreeMode : bool) (time : R)
    (ms : MaterialStore) : Particle * MaterialStore :=
  (* 1. position interpolation *)
  let m := mesh p in
  let m := withPosition m
             (Vector3.lerp (position m) (target p isTreeMode)
                           (dt * speed (type p) isTreeMode)) in
  (* 2. rotation *)
  let m := withRotation m
             (Vector3.mk (Vector3.x (rotation m) + Vector3.x (rotationSpeed p))
                         (Vector3.y (rotation m) + Vector3.y (rotationSpeed p))
                         (Vector3.z (rotation m) + Vector3.z (rotationSpeed p))) in
  (* 3. effects by type *)
  if ParticleType_eqb (type p) light then
    let b := blink p time in
    let ms := setEmissiveIntensity ms (material m) (0.5 + b * 1.5) in
    let s := initialScale p * (0.8 + b * 0.4) in
    (withMesh p (withScale m (Vector3.setScalar (scale m) s)), ms)
  else if ParticleType_eqb (type p) star then
    let pl := pulse time in
    let m := withScale m (Vector3.setScalar (scale m) (initialScale p * pl)) in
    let ms := setEmissiveIntensity ms (material m) (1.0 + sin (time * 4) * 0.5) in
    (withMesh p m, ms)
  else if ParticleType_eqb (type p) snow then
    let m := withRotation m
               (Vector3.mk (Vector3.x (rotation m))
                           (Vector3.y (rotation m) + 0.01)
                           (Vector3.z (rotation m) + 0.005)) in
    (withMesh p m, ms)
  else
    (withMesh p m, ms).

(** [material.emissiveIntensity] of the particle's own mesh. *)
Definition emissiveIntensity (ms : MaterialStore) (p : Particle) : option R :=
  ms (material (mesh p)).

(** ** Scene set-up: the state and its monad

    Object generation appends to the array [particles] and calls
    [Math.random()]; both are threaded through a state. *)

Record SceneState : Type := mkScene {
  cursor : nat;                 (* number of draws made so far *)
  particles : list Particle     (* the array [particles] *)
}.

Definition M (A : Type) : Type := SceneState -> A * SceneState.

Definition ret {A : Type} (a : A) : M A := fun s => (a, s).

Definition bind {A B : Type} (c : M A) (k : A -> M B) : M B :=
  fun s => let (a, s') := c s in k a s'.

Declare Scope scene_scope.
Delimit Scope scene_scope with scene.
Notation "x <- c ;; k" := (bind c (fun x => k))
  (at level 61, c at next level, right associativity) : scene_scope.
Notation "c ;; k" := (bind c (fun _ => k))
  (at level 61, right associativity) : scene_scope.
Local Open Scope scene_scope.

(** [particles.push(p)] *)
Definition push (p : Particle) : M unit :=
  fun s => (tt, mkScene (cursor s) (particles s ++ [p])).

(** [for (let i = 0; i < n; i++) body]: the body is run for
    [i = 0, 1, ..., n - 1], in this order. *)
Fixpoint forEachIndex (l : list nat) (body : nat -> M unit) : M unit :=
  match l with
  | [] => ret tt
  | i :: l' => body i ;; forEachIndex l' body
  end.

Definition for_lt (n : nat) (body : nat -> M unit) : M unit :=
  forEachIndex (seq 0 n) body.

(** [Math.pow(x, y)] for [0 <= x] and [0 < y], the only use the source
    makes of it: 0 at [x = 0], [exp (y * ln x)] elsewhere. *)
Definition Math_pow (x y : R) : R :=
  if Req_dec_T x 0 then 0 else Rpower x y.

(** [Math.floor(x)] *)
Definition Math_floor (x : R) : Z := Int_part x.

(** [palette[i]] for an index inside the palette.  The index the source
    computes, [Math.floor(Math.random() * palette.length)], is inside it
    for every draw in [0, 1); [dflt] stands for the result elsewhere,
    which no run reaches. *)
Definition pick (palette : list MaterialId) (i : Z) (dflt : MaterialId)
  : MaterialId :=
  nth (Z.to_nat i) palette dflt.

Definition leafMaterials : list MaterialId :=
  [matLeafDark; matLeafMid; matLeafMid; matLeafBright].

Definition ornamentMaterials : list MaterialId :=
  [matGold; matRed; matRed; matSilver].

(** Generation parameters *)
Definition TREE_HEIGHT : R := 30.
Definition TREE_WIDTH_BASE : R := 14.
Definition TRUNK_HEIGHT : R := 4.
Definition Y_OFFSET : R := -18.
Definition FOLIAGE_COUNT : nat := 8000.
Definition ORNAMENT_COUNT : nat := 350.
Definition LIGHT_COUNT : nat := 400.
Definition TURNS : R := 10.
Definition SNOW_COUNT : nat := 700.

(** ** Scene set-up: object generation *)

Section Generation.

(** The sequence of values that the calls of [Math.random()] return. *)
Variable rnd : nat -> R.

(** [Math.random()] *)
Definition Math_random : M R :=
  fun s => (rnd (cursor s), mkScene (S (cursor s)) (particles s)).

(** [new Particle(mesh, treePos, scatterPos, type)] *)
Definition newParticle (mesh : Mesh) (treePos scatterPos : Vec3)
    (ty : ParticleType) : M Particle :=
  let initialScale := Vector3.x (scale mesh) in
  rx <- Math_random ;;
  ry <- Math_random ;;
  rz <- Math_random ;;
  let rotationSpeed :=
    Vector3.mk ((rx - 0.5) * 0.02) ((ry - 0.5) * 0.02) ((rz - 0.5) * 0.02) in
  ph <- Math_random ;;
  let phase := ph * PI * 2 in
  ret (mkParticle mesh treePos scatterPos initialScale rotationSpeed phase
                  ty (materialColor (material mesh))).

(** The random scatter position of [addParticle] (spherical explosion). *)
Definition randomScatter : M Vec3 :=
  u <- Math_random ;;
  let r := 35 + u * 30 in
  v <- Math_random ;;
  let theta := v * PI * 2 in
  w <- Math_random ;;
  let phi := acos (2 * w - 1) in
  ret (Vector3.mk (r * sin phi * cos theta)
                  (r * sin phi * sin theta)
                  (r * cos phi)).

(** [addParticle(mesh, pos, type, customScatterPos?)] *)
Definition addParticle (mesh : Mesh) (pos : Vec3) (ty : ParticleType)
    (customScatterPos : option Vec3) : M unit :=
  let mesh := withPosition mesh (Vector3.copy (position mesh) pos) in
  scatterPos <- match customScatterPos with
                | Some c => ret c
                | None => randomScatter
                end ;;
  p <- newParticle mesh pos scatterPos ty ;;
  push p.

(** A. trunk *)
Definition trunkBody (i : nat) : M unit :=
  u <- Math_random ;;
  let h := u * TRUNK_HEIGHT in
  v <- Math_random ;;
  let theta := v * PI * 2 in
  w <- Math_random ;;
  let r := w * 1.8 in
  let x := r * cos theta in
  let z := r * sin theta in
  let mesh := newMesh matTrunk in
  let mesh := withScale mesh (Vector3.set (scale mesh) 0.3 0.3 0.3) in
  let pos := Vector3.mk x (Y_OFFSET + h - TRUNK_HEIGHT + 1) z in
  addParticle mesh pos trunk None.

(** B. foliage: the radial distance of an instance, from the cone
    radius, the radial fraction and the height. *)
Definition foliageRadius (maxR rNorm h : R) : R :=
  let branchNoise := sin (h * 2.5) * 0.2 in
  maxR * rNorm * (1 + branchNoise * (if Rgt_dec rNorm 0.6 then 1 else 0)).

Definition foliageBody (i : nat) : M unit :=
  let t := INR i / INR FOLIAGE_COUNT in
  let h := t * TREE_HEIGHT in
  let maxR := TREE_WIDTH_BASE * (1 - t) in
  u <- Math_random ;;
  let rNorm := Math_pow u 0.8 in
  let r := foliageRadius maxR rNorm h in
  v <- Math_random ;;
  let theta := v * PI * 2 in
  let x := r * cos theta in
  let z := r * sin theta in
  let y := Y_OFFSET + h in
  w <- Math_random ;;
  let mat := pick leafMaterials
                  (Math_floor (w * INR (length leafMaterials)))
                  matLeafDark in
  let mesh := newMesh mat in
  a <- Math_random ;;
  let s := (0.2 + a * 0.3) * (1.2 - t * 0.4) in
  let mesh := withScale mesh (Vector3.setScalar (scale mesh) s) in
  b <- Math_random ;;
  c <- Math_random ;;
  d <- Math_random ;;
  let mesh := withRotation mesh
                (Vector3.set (rotation mesh) (b * PI) (c * PI) (d * PI)) in
  addParticle mesh (Vector3.mk x y z) leaf None.

(** C. ornaments; [continue] ends the iteration. *)
Definition ornamentBody (i : nat) : M unit :=
  t <- Math_random ;;
  if Rgt_dec t 0.98 then ret tt
  else
    let h := t * TREE_HEIGHT in
    let maxR := TREE_WIDTH_BASE * (1 - t) in
    u <- Math_random ;;
    let r := maxR * (0.8 + u * 0.3) in
    v <- Math_random ;;
    let theta := v * PI * 2 in
    let x := r * cos theta in
    let z := r * sin theta in
    let y := Y_OFFSET + h in
    w <- Math_random ;;
    let mat := pick ornamentMaterials
                    (Math_floor (w * INR (length ornamentMaterials)))
                    matGold in
    let mesh := newMesh mat in
    a <- Math_random ;;
    let isLarge := Rgt_dec a 0.7 in
    b <- Math_random ;;
    let s := if isLarge then 0.6 + b * 0.3 else 0.3 + b * 0.2 in
    let mesh := withScale mesh (Vector3.setScalar (scale mesh) s) in
    addParticle mesh (Vector3.mk x y z) ornament None.

(** D. lights *)
Definition lightBody (i : nat) : M unit :=
  let t := INR i / INR LIGHT_COUNT in
  let h := t * TREE_HEIGHT in
  let maxR := TREE_WIDTH_BASE * (1 - t) in
  let angle := t * PI * 2 * TURNS in
  u <- Math_random ;;
  let r := (maxR + 0.5) * (0.95 + u * 0.1) in
  let x := r * cos angle in
  let z := r * sin angle in
  let y := Y_OFFSET + h in
  v <- Math_random ;;
  let mesh := newMesh (if Rgt_dec v 0.8 then matLightColor else matLightWarm) in
  let mesh := withScale mesh (Vector3.setScalar (scale mesh) 0.25) in
  addParticle mesh (Vector3.mk x y z) light None.

(** E. star.  The two halos are children of the star mesh; they are
    not particles and nothing below depends on them. *)
Definition starStep : M unit :=
  let starMesh := newMesh matStar in
  let starMesh := withScale starMesh (Vector3.setScalar (scale starMesh) 2.5) in
  addParticle starMesh (Vector3.mk 0 (Y_OFFSET + TREE_HEIGHT + 1.5) 0) star None.

(** F. snow *)
Definition snowBody (i : nat) : M unit :=
  let mesh := newMesh matSnow in
  let mesh := withScale mesh (Vector3.setScalar (scale mesh) 0.12) in
  let range := 70 in
  u <- Math_random ;;
  let x := (u - 0.5) * range in
  v <- Math_random ;;
  let y := (v - 0.5) * range + 10 in
  w <- Math_random ;;
  let z := (w - 0.5) * range in
  a <- Math_random ;;
  let scatterR := 80 + a * 20 in
  b <- Math_random ;;
  let phi := b * PI * 2 in
  c <- Math_random ;;
  let theta := c * PI in
  let sx := scatterR * sin theta * cos phi in
  let sy := scatterR * sin theta * sin phi in
  let sz := scatterR * cos theta in
  addParticle mesh (Vector3.mk x y z) snow (Some (Vector3.mk sx sy sz)).

(** Section 4 of the effect, from [const particles = []] to
    [particlesRef.current = particles]. *)
Definition generateObjects : M unit :=
  for_lt 250 trunkBody ;;
  for_lt FOLIAGE_COUNT foliageBody ;;
  for_lt ORNAMENT_COUNT ornamentBody ;;
  for_lt LIGHT_COUNT lightBody ;;
  starStep ;;
  for_lt SNOW_COUNT snowBody.

Definition emptyScene : SceneState := mkScene 0 [].

Definition sceneParticles : list Particle :=
  particles (snd (generateObjects emptyScene)).

End Generation.

(** ** The animation loop *)

(** A frame, as the arguments [update] receives: [(dt, isTreeMode, time)]. *)
Definition Frame : Type := (R * bool * R)%type.

(** Successive calls of [update] on one particle, one per frame. *)
Fixpoint runFrames (frames : list Frame) (p : Particle) (ms : MaterialStore)
    : Particle * MaterialStore :=
  match frames with
  | [] => (p, ms)
  | (dt, isTreeMode, time) :: rest =>
      let (p', ms') := update p dt isTreeMode time ms in
      runFrames rest p' ms'
  end.

(** ** Vocabulary for the generation *)

(** From any state, the command leaves in the array what was there and
    appends between [lo] and [hi] particles, each satisfying [Q]. *)
Definition appends (c : M unit) (Q : Particle -> Prop) (lo hi : nat) : Prop :=
  forall s, exists added,
    particles (snd (c s)) = particles s ++ added
    /\ Forall Q added
    /\ (lo <= length added <= hi)%nat.

(** The scatter position that [addParticle] computes from the draws
    number [n], [n + 1] and [n + 2]. *)
Definition scatterAt (rnd : nat -> R) (n : nat) : Vec3 :=
  fst (randomScatter rnd (mkScene n [])).

(** The particle has the scatter position of the default rule. *)
Definition defaultScatter (rnd : nat -> R) (p : Particle) : Prop :=
  exists n, posScatter p = scatterAt rnd n.

(** The particle has the scatter position of the snow loop, of radius
    [80 + u * 20] for a draw [u]. *)
Definition snowScatter (rnd : nat -> R) (p : Particle) : Prop :=
  exists n theta phi,
    posScatter p
    = Vector3.mk ((80 + rnd n * 20) * sin theta * cos phi)
                 ((80 + rnd n * 20) * sin theta * sin phi)
                 ((80 + rnd n * 20) * cos theta).

(** What holds of a particle of category [ty] when [addParticle] has
    pushed it. *)
Definition created (rnd : nat -> R) (ty : ParticleType) (p : Particle) : Prop :=
  type p = ty
  /\ position (mesh p) = posTree p
  /\ if ParticleType_eqb ty snow then snowScatter rnd p
     else defaultScatter rnd p.

(** ** Vocabulary of the specification *)

(** The speed factor as the specification words it: by category in
    assembled mode, 1.5 for every category in dispersed mode. *)
Definition specSpeedFactor (ty : ParticleType) (isTreeMode : bool) : R :=
  if isTreeMode then
    match ty with
    | ornament => 1.8
    | leaf => 2.2
    | _ => 2.0
    end
  else 1.5.


(** The fields of a particle that [update] reads and that the class
    never assigns after construction. *)
Definition sameImmutable (p q : Particle) : Prop :=
  posTree p = posTree q /\ posScatter p = posScatter q
  /\ initialScale p = initialScale q /\ rotationSpeed p = rotationSpeed q
  /\ phase p = phase q /\ type p = type q.

(** The transform of the mesh: position, rotation and scale. *)
Definition sameTransform (m n : Mesh) : Prop :=
  position m = position n /\ rotation m = rotation n /\ scale m = scale n.


(** ** The frame loop of the scene *)

(** [particlesRef.current.forEach(p => p.update(dt, isTree, time))]:
    the calls follow the order of the array and share the materials. *)
Fixpoint updateAll (ps : list Particle) (dt : R) (isTree : bool) (time : R)
    (ms : MaterialStore) : list Particle * MaterialStore :=
  match ps with
  | [] => ([], ms)
  | p :: ps' =>
      let (p', ms') := update p dt isTree time ms in
      let (ps'', ms'') := updateAll ps' dt isTree time ms' in
      (p' :: ps'', ms'')
  end.

(** What [animate] writes: the rotation of [mainGroup], the particles
    and the materials. *)
Record Stage : Type := mkStage {
  groupRotation : Vec3;
  stageParticles : list Particle;
  stageMaterials : MaterialStore
}.

(** One call of [animate], for the values [dt] and [time] read from the
    clock and the mode read from [modeRef]. *)
Definition animate (dt time : R) (isTree : bool) (st : Stage) : Stage :=
  let rot := groupRotation st in
  let rot := Vector3.mk (Vector3.x rot) (time * 0.1) (Vector3.z rot) in
  let rot := if isTree
             then Vector3.mk (Vector3.x rot) (Vector3.y rot)
                             (sin (time * 0.5) * 0.015)
             else Vector3.mk (Vector3.x rot) (Vector3.y rot)
                             (sin (time * 0.2) * 0.1) in
  let (ps, ms) := updateAll (stageParticles st) dt isTree time
                            (stageMaterials st) in
  mkStage rot ps ms.

(** Successive calls of [animate], one per frame. *)
Fixpoint runAnimation (frames : list Frame) (st : Stage) : Stage :=
  match frames with
  | [] => st
  | (dt, isTree, time) :: rest => runAnimation rest (animate dt time isTree st)
  end.

(** The stage when the first frame starts: a fresh group, the generated
    particles, the materials as constructed. *)
Definition initialStage (rnd : nat -> R) : Stage :=
  mkStage Vector3.zero (sceneParticles rnd) initialMaterials.

(** Frames of one delta-time and one mode, at the given times. *)
Definition constantFrames (dt : R) (isTreeMode : bool) (times : list R)
  : list Frame :=
  map (fun time => (dt, isTreeMode, time)) times.

(** The particle writes to its material in [update]. *)
Definition writesMaterial (p : Particle) : bool :=
  ParticleType_eqb (type p) light || ParticleType_eqb (type p) star.

(** ** Vocabulary for the layout *)

(** Distance of a point from the axis of the tree. *)
Definition horizontalRadius (v : Vec3) : R :=
  sqrt (Vector3.x v * Vector3.x v + Vector3.z v * Vector3.z v).

(** Radius of the cone at the height [y]: [TREE_WIDTH_BASE * (1 - t)]
    for [y = Y_OFFSET + t * TREE_HEIGHT]. *)
Definition coneRadius (y : R) : R :=
  TREE_WIDTH_BASE * (1 - (y - Y_OFFSET) / TREE_HEIGHT).

(** What the constructor and [addParticle] give every particle, for
    draws in [[0, 1)]. *)
Definition wellFormed (p : Particle) : Prop :=
  position (mesh p) = posTree p
  /\ scale (mesh p)
     = Vector3.mk (initialScale p) (initialScale p) (initialScale p)
  /\ baseColor p = materialColor (material (mesh p))
  /\ (-0.01 <= Vector3.x (rotationSpeed p) < 0.01
      /\ -0.01 <= Vector3.y (rotationSpeed p) < 0.01
      /\ -0.01 <= Vector3.z (rotationSpeed p) < 0.01)
  /\ 0 <= phase p < 2 * PI
  /\ 35 <= Vector3.length (posScatter p) < 100.

(** Where and how each part of the generation places its particles. *)
Definition placedAs (ty : ParticleType) (p : Particle) : Prop :=
  let pos := posTree p in
  match ty with
  | trunk =>
      material (mesh p) = matTrunk
      /\ initialScale p = 0.3
      /\ Y_OFFSET - TRUNK_HEIGHT + 1 <= Vector3.y pos < Y_OFFSET + 1
      /\ horizontalRadius pos < 1.8
  | leaf =>
      In (material (mesh p)) leafMaterials
      /\ 0.16 <= initialScale p < 0.6
      /\ Y_OFFSET <= Vector3.y pos < Y_OFFSET + TREE_HEIGHT
      /\ horizontalRadius pos <= 1.2 * coneRadius (Vector3.y pos)
  | ornament =>
      In (material (mesh p)) ornamentMaterials
      /\ 0.3 <= initialScale p < 0.9
      /\ Y_OFFSET <= Vector3.y pos <= Y_OFFSET + 0.98 * TREE_HEIGHT
      /\ 0.8 * coneRadius (Vector3.y pos) <= horizontalRadius pos
         < 1.1 * coneRadius (Vector3.y pos)
  | light =>
      (material (mesh p) = matLightWarm \/ material (mesh p) = matLightColor)
      /\ initialScale p = 0.25
      /\ Y_OFFSET <= Vector3.y pos < Y_OFFSET + TREE_HEIGHT
      /\ 0.95 * (coneRadius (Vector3.y pos) + 0.5) <= horizontalRadius pos
         < 1.05 * (coneRadius (Vector3.y pos) + 0.5)
  | star =>
      material (mesh p) = matStar
      /\ initialScale p = 2.5
      /\ pos = Vector3.mk 0 (Y_OFFSET + TREE_HEIGHT + 1.5) 0
  | snow =>
      material (mesh p) = matSnow
      /\ initialScale p = 0.12
      /\ (-35 <= Vector3.x pos < 35
          /\ -25 <= Vector3.y pos < 45
          /\ -35 <= Vector3.z pos < 35)
      /\ 80 <= Vector3.length (posScatter p)
  end.

(** What holds of every particle of the generated scene. *)
Definition laidOut (p : Particle) : Prop :=
  wellFormed p /\ placedAs (type p) p.

(** * The App component

    The state of the component ([useState] and [useRef] values) and its
    handlers, as transitions.  The timers of the browser are part of the
    state: [setTimeout] returns a fresh positive id and makes it
    pending; a pending timer may fire, [clearTimeout] removes it.  How
    long a timer takes is not modelled: the order of the events is
    chosen by whoever runs the handlers. *)

Module App.

Record State : Type := mkState {
  isTreeMode : bool;
  showUI : bool;
  showPhoto : bool;
  timerRef : option nat;        (* [null] or the id of a timer *)
  isLongPressRef : bool;
  ignoreClickRef : bool;
  pendingTimers : list nat;     (* browser: timers set, not fired, not cleared *)
  nextTimerId : nat             (* browser: the id of the next timer *)
}.

(** The first render. *)
Definition initial : State :=
  mkState true true false None false false [] 1.

(** [clearTimeout(id)] *)
Definition clearTimeout (id : nat) (pending : list nat) : list nat :=
  remove Nat.eq_dec id pending.

Definition handleDoubleClick (st : State) : State :=
  mkState (isTreeMode st) (showUI st) true (timerRef st)
          (isLongPressRef st) (ignoreClickRef st)
          (pendingTimers st) (nextTimerId st).

Definition handleTouchStart (st : State) : State :=
  let id := nextTimerId st in
  mkState (isTreeMode st) (showUI st) (showPhoto st) (Some id)
          false false
          (id :: pendingTimers st) (S id).

(** The function given to [setTimeout] in [handleTouchStart]. *)
Definition longPressCallback (st : State) : State :=
  mkState (isTreeMode st) (showUI st) true (timerRef st)
          true true
          (pendingTimers st) (nextTimerId st).

(** The timer [id] fires; only a pending timer does. *)
Definition timerFires (id : nat) (st : State) : State :=
  if in_dec Nat.eq_dec id (pendingTimers st) then
    longPressCallback
      (mkState (isTreeMode st) (showUI st) (showPhoto st) (timerRef st)
               (isLongPressRef st) (ignoreClickRef st)
               (clearTimeout id (pendingTimers st)) (nextTimerId st))
  else st.

(** [if (timerRef.current)]: [null] and 0 are falsy. *)
Definition handleTouchEnd (st : State) : State :=
  match timerRef st with
  | Some id =>
      if Nat.eqb id 0 then st
      else mkState (isTreeMode st) (showUI st) (showPhoto st) None
                   (isLongPressRef st) (ignoreClickRef st)
                   (clearTimeout id (pendingTimers st)) (nextTimerId st)
  | None => st
  end.

Definition toggleMode (st : State) : State :=
  if ignoreClickRef st then
    mkState (isTreeMode st) (showUI st) (showPhoto st) (timerRef st)
            (isLongPressRef st) false
            (pendingTimers st) (nextTimerId st)
  else
    mkState (negb (isTreeMode st)) (showUI st) (showPhoto st) (timerRef st)
            (isLongPressRef st) (ignoreClickRef st)
            (pendingTimers st) (nextTimerId st).

(** [onClick={() => setShowUI(!showUI)}] *)
Definition toggleUI (st : State) : State :=
  mkState (isTreeMode st) (negb (showUI st)) (showPhoto st) (timerRef st)
          (isLongPressRef st) (ignoreClickRef st)
          (pendingTimers st) (nextTimerId st).

(** [onClick={() => setShowPhoto(false)}], on the overlay and on its
    close button. *)
Definition closePhoto (st : State) : State :=
  mkState (isTreeMode st) (showUI st) false (timerRef st)
          (isLongPressRef st) (ignoreClickRef st)
          (pendingTimers st) (nextTimerId st).

Inductive Event : Type :=
  | DoubleClick
  | TouchStart
  | TouchEnd
  | TimerFires (id : nat)
  | SceneClick
  | HideUIClick
  | PhotoClick.

Definition step (st : State) (e : Event) : State :=
  match e with
  | DoubleClick => handleDoubleClick st
  | TouchStart => handleTouchStart st
  | TouchEnd => handleTouchEnd st
  | TimerFires id => timerFires id st
  | SceneClick => toggleMode st
  | HideUIClick => toggleUI st
  | PhotoClick => closePhoto st
  end.

Definition run (events : list Event) (st : State) : State :=
  fold_left step events st.

(** What the timers of a state satisfy when the ids are handed out in
    increasing order from 1. *)
Definition timersFresh (st : State) : Prop :=
  (1 <= nextTimerId st)%nat
  /\ (forall id, In id (pendingTimers st) -> (1 <= id < nextTimerId st)%nat)
  /\ (forall id, timerRef st = Some id -> (1 <= id < nextTimerId st)%nat).

End App.

(** The App component of [src/App.tsx], without the photo and the long
    press. *)
Module SimpleApp.

Record State : Type := mkState {
  isTreeMode : bool;
  showUI : bool
}.

Definition initial : State := mkState true true.

Definition toggleMode (st : State) : State :=
  mkState (negb (isTreeMode st)) (showUI st).

Definition toggleUI (st : State) : State :=
  mkState (isTreeMode st) (negb (showUI st)).

End SimpleApp.

(** The events of [App] that [SimpleApp] knows, and what it does on
    them. *)
Definition simpleStep (st : SimpleApp.State) (e : App.Event) : SimpleApp.State :=
  match e with
  | App.SceneClick => SimpleApp.toggleMode st
  | App.HideUIClick => SimpleApp.toggleUI st
  | _ => st
  end.

Definition isMouseOnly (e : App.Event) : bool :=
  match e with
  | App.SceneClick | App.HideUIClick | App.DoubleClick | App.PhotoClick => true
  | _ => false
  end.


(** * Partial sums of the sine and cosine series on the rationals

    [sinApprox] and [cosApprox] are [sin_approx] and [cos_approx] of
    the Standard Library computed on [Q]; they enclose the sine and
    the cosine of a rational angle between two rationals. *)

Module Series.
Import QArith_base Qreduction.
Local Open Scope Q_scope.

(** The factorial on [Z]. *)
Fixpoint zfact (n : nat) : Z :=
  match n with
  | O => 1%Z
  | S k => (Z.of_nat n * zfact k)%Z
  end.

(** [q ^ n] *)
Fixpoint qpow (q : Q) (n : nat) : Q :=
  match n with
  | O => 1
  | S k => q * qpow q k
  end.

(** [f 0 + ... + f n], reduced to lowest terms at every step. *)
Fixpoint sumQ (f : nat -> Q) (n : nat) : Q :=
  match n with
  | O => f O
  | S k => Qred (sumQ f k + f n)
  end.

(** The terms and the partial sums of the two series. *)
Definition sinTerm (a : Q) (i : nat) : Q :=
  qpow (-1) i * (qpow a (2 * i + 1) / inject_Z (zfact (2 * i + 1))).

Definition cosTerm (a : Q) (i : nat) : Q :=
  qpow (-1) i * (qpow a (2 * i) / inject_Z (zfact (2 * i))).

Definition sinApprox (a : Q) (n : nat) : Q := sumQ (sinTerm a) n.
Definition cosApprox (a : Q) (n : nat) : Q := sumQ (cosTerm a) n.

(** The double-angle formula of the cosine: [cos a] from [cos (a / 2)]. *)
Definition half (a : Q) : Q := a * (1 # 2).
Definition doubled (c : Q) : Q := 2 * c * c - 1.
End Series.

(** * The scatter positions in binary64

    The numbers of the source are IEEE 754 doubles.  For the two scatter
    rules this module repeats the embedding above on the primitive
    floats of Rocq, which are binary64 with rounding to nearest even,
    with every operation of the source rounded where the source rounds
    it.  [Math.sin], [Math.cos] and [Math.acos] belong to the JavaScript
    engine, not to the repository: they are parameters. *)

Module Binary64.

Import PrimFloat FloatOps SpecFloat.
Local Open Scope float_scope.

(** A [THREE.Vector3] as it is stored. *)
Record Vector3F : Type := mkF { fx : float; fy : float; fz : float }.

(** The functions of the engine. *)
Record MathLib : Type := mkLib {
  Math_sin : float -> float;
  Math_cos : float -> float;
  Math_acos : float -> float
}.

(** [Math.PI] *)
Definition Math_PI : float := 0x1.921fb54442d18p+1.

(** The random scatter position of [addParticle], from the three draws
    in the order of the source. *)
Definition randomScatter (L : MathLib) (u v w : float) : Vector3F :=
  let r := 35 + u * 30 in
  let theta := v * Math_PI * 2 in
  let phi := Math_acos L (2 * w - 1) in
  mkF (r * Math_sin L phi * Math_cos L theta)
      (r * Math_sin L phi * Math_sin L theta)
      (r * Math_cos L phi).

(** The scatter position of the snow loop, from its three draws in the
    order of the source. *)
Definition snowScatter (L : MathLib) (a b c : float) : Vector3F :=
  let scatterR := 80 + a * 20 in
  let phi := b * Math_PI * 2 in
  let theta := c * Math_PI in
  let sx := scatterR * Math_sin L theta * Math_cos L phi in
  let sy := scatterR * Math_sin L theta * Math_sin L phi in
  let sz := scatterR * Math_cos L theta in
  mkF sx sy sz.

(** The rational number a finite double is; 0 for the zeros, the
    infinities and [NaN]. *)
Definition F2Q (f : float) : QArith_base.Q :=
  match Prim2SF f with
  | S754_finite s m e =>
      QArith_base.Qmult
        (QArith_base.inject_Z (if s then Z.neg m else Z.pos m))
        (QArith_base.Qpower (QArith_base.Qmake 2 1) e)
  | _ => QArith_base.inject_Z 0
  end.

(** The same number as a real. *)
Definition F2R (f : float) : R := Q2R (F2Q f).

(** The stored vector as a vector of the embedding on the reals. *)
Definition toVec3 (v : Vector3F) : Vec3 :=
  Vector3.mk (F2R (fx v)) (F2R (fy v)) (F2R (fz v)).

(** The real number [x] lies strictly between the two doubles of
    [candidates], which are next to each other. *)
Definition brackets (x : R) (candidates : list float) : Prop :=
  match candidates with
  | [lo; hi] => next_up lo = hi /\ (F2R lo < x < F2R hi)%R
  | _ => False
  end.

(** [this.length()] of three.js, as the engine computes it. *)
Definition length (v : Vector3F) : float :=
  sqrt (fx v * fx v + fy v * fy v + fz v * fz v).

(** An engine given by the values it returns at the arguments one
    computation uses; elsewhere the table answers [NaN]. *)
Fixpoint lookup (x : float) (table : list (float * float)) : float :=
  match table with
  | [] => nan
  | (a, r) :: rest => if x =? a then r else lookup x rest
  end.

Definition engine (sines cosines arccosines : list (float * float)) : MathLib :=
  mkLib (fun x => lookup x sines) (fun x => lookup x cosines)
        (fun x => lookup x arccosines).

(** The snow rule at the draws 0, 0 and 135/1024: the radius is 80, the
    angle [phi] is 0, where ECMAScript fixes the sine to 0 and the
    cosine to 1, and [theta] is [snowTheta].  The exact sine and cosine
    of [snowTheta] lie strictly between the two doubles listed for
    each ([snow_engine_values] below); an engine whose error is below
    one unit in the last place returns one of the two. *)
Definition snowDraw : float := 0.1318359375.
Definition snowTheta : float := 0x1.a81d712dfe78fp-2.
Definition snowSines : list float :=
  [0x1.9c17d440df9f1p-2; 0x1.9c17d440df9f2p-2].
Definition snowCosines : list float :=
  [0x1.d4b5b1b187523p-1; 0x1.d4b5b1b187524p-1].

Definition snowEngines : list MathLib :=
  flat_map
    (fun s => map (fun c => engine [(0, 0); (snowTheta, s)]
                                   [(0, 1); (snowTheta, c)] [])
                  snowCosines)
    snowSines.

(** The default rule at the draws 0, 57/128 and 63/128: the radius is
    35, [theta] is [defaultTheta] and [phi] is the arc cosine of
    [-1/64], which lies strictly between the two doubles of
    [defaultPhis]; the exact sine and cosine of [defaultTheta] and of
    either double of [defaultPhis] lie strictly between the two doubles
    listed for each ([default_theta_values], [default_phi_values] and
    [default_acos_values] below). *)
Definition defaultDrawTheta : float := 0.4453125.
Definition defaultDrawPhi : float := 0.4921875.
Definition defaultTheta : float := 0x1.66243d70cb829p+1.
Definition defaultThetaSines : list float :=
  [0x1.58f9a75ab1fe1p-2; 0x1.58f9a75ab1fe2p-2].
Definition defaultThetaCosines : list float :=
  [-0x1.e212104f686e4p-1; -0x1.e212104f686e3p-1].
Definition defaultAcosArg : float := -0.015625.
Definition defaultPhis : list (float * list float * list float) :=
  [ (0x1.961fbfef3a4bdp+0,
     [0x1.ffefffbffdffep-1; 0x1.ffefffbffdfffp-1],
     [-0x1.fffffffffffc5p-7; -0x1.fffffffffffc4p-7]);
    (0x1.961fbfef3a4bep+0,
     [0x1.ffefffbffdffep-1; 0x1.ffefffbffdfffp-1],
     [-0x1.0000000000023p-6; -0x1.0000000000022p-6]) ].

Definition defaultEngines : list MathLib :=
  flat_map
    (fun '(phi, sines, cosines) =>
       flat_map
         (fun s =>
            flat_map
              (fun c =>
                 flat_map
                   (fun st =>
                      map (fun ct => engine [(defaultTheta, st); (phi, s)]
                                            [(defaultTheta, ct); (phi, c)]
                                            [(defaultAcosArg, phi)])
                          defaultThetaCosines)
                   defaultThetaSines)
              cosines)
         sines)
    defaultPhis.

End Binary64.

(** * Properties of Particle.update *)

Section UpdateFacts.

Variables (p : Particle) (dt : R) (isTreeMode : bool) (time : R)
          (ms : MaterialStore).

Lemma ParticleType_eqb_refl (ty : ParticleType) : ParticleType_eqb ty ty = true.
Proof. unfold ParticleType_eqb. destruct (ParticleType_eq_dec ty ty); congruence. Qed.

Lemma ParticleType_eqb_neq (a b : ParticleType) :
  a <> b -> ParticleType_eqb a b = false.
Proof. unfold ParticleType_eqb. destruct (ParticleType_eq_dec a b); congruence. Qed.

(** The position after the call, whatever the category. *)
Lemma update_position :
  position (mesh (fst (update p dt isTreeMode time ms)))
  = Vector3.lerp (position (mesh p)) (target p isTreeMode)
                 (dt * speed (type p) isTreeMode).
Proof.
  unfold update.
  destruct (ParticleType_eqb (type p) light); [reflexivity|].
  destruct (ParticleType_eqb (type p) star); [reflexivity|].
  destruct (ParticleType_eqb (type p) snow); reflexivity.
Qed.

(** No call assigns the fields set by the constructor. *)
Lemma update_immutable :
  sameImmutable (fst (update p dt isTreeMode time ms)) p.
Proof.
  unfold update, sameImmutable.
  destruct (ParticleType_eqb (type p) light); [cbn; intuition|].
  destruct (ParticleType_eqb (type p) star); [cbn; intuition|].
  destruct (ParticleType_eqb (type p) snow); cbn; intuition.
Qed.

Lemma update_material :
  material (mesh (fst (update p dt isTreeMode time ms))) = material (mesh p).
Proof.
  unfold update.
  destruct (ParticleType_eqb (type p) light); [reflexivity|].
  destruct (ParticleType_eqb (type p) star); [reflexivity|].
  destruct (ParticleType_eqb (type p) snow); reflexivity.
Qed.

End UpdateFacts.

Lemma speed_specSpeedFactor (ty : ParticleType) (isTreeMode : bool) :
  speed ty isTreeMode = specSpeedFactor ty isTreeMode.
Proof. destruct ty, isTreeMode; reflexivity. Qed.

Example speed_star_tree : speed star true = 2.0.
Proof. reflexivity. Qed.

Example speed_leaf_dispersed : speed leaf false = 1.5.
Proof. reflexivity. Qed.

Example lerp_half :
  Vector3.lerp (Vector3.mk 0 0 0) (Vector3.mk 2 4 6) 0.5 = Vector3.mk 1 2 3.
Proof. unfold Vector3.lerp. cbn. f_equal; lra. Qed.

(** C2. In [Particle.update] the interpolation rate is the delta-time
    times a speed factor; the factor is 1.8 for an ornament, 2.2 for a
    leaf and 2.0 for every other category in assembled mode, and 1.5 for
    every category in dispersed mode. *)
Theorem update_interpolation_rate
    (p : Particle) (dt : R) (isTreeMode : bool) (time : R) (ms : MaterialStore) :
  position (mesh (fst (update p dt isTreeMode time ms)))
  = Vector3.lerp (position (mesh p)) (target p isTreeMode)
                 (dt * speed (type p) isTreeMode)
  /\ speed (type p) isTreeMode = specSpeedFactor (type p) isTreeMode
  /\ speed ornament true = 1.8
  /\ speed leaf true = 2.2
  /\ (forall ty, ty <> ornament -> ty <> leaf -> speed ty true = 2.0)
  /\ (forall ty, speed ty false = 1.5).
Proof.
  split; [apply update_position |].
  split; [apply speed_specSpeedFactor |].
  split; [reflexivity |]. split; [reflexivity |]. split.
  - intros ty Ho Hl. destruct ty; try reflexivity; contradiction.
  - intros ty. destruct ty; reflexivity.
Qed.

(** ** The interpolation step *)

Module LerpFacts.

Import Vector3.

Lemma sqDist_nonneg (a b : t) : 0 <= distanceToSquared a b.
Proof.
  unfold distanceToSquared. cbv zeta.
  pose proof (Rle_0_sqr (x a - x b)).
  pose proof (Rle_0_sqr (y a - y b)).
  pose proof (Rle_0_sqr (z a - z b)).
  unfold Rsqr in *. lra.
Qed.

Lemma sqDist_zero_eq (a b : t) : distanceToSquared a b = 0 -> a = b.
Proof.
  destruct a as [ax ay az], b as [bx b_y bz]. unfold distanceToSquared. cbn. intros H.
  pose proof (Rle_0_sqr (ax - bx)) as Hx.
  pose proof (Rle_0_sqr (ay - b_y)) as Hy.
  pose proof (Rle_0_sqr (az - bz)) as Hz.
  unfold Rsqr in Hx, Hy, Hz.
  assert (Ex : (ax - bx) * (ax - bx) = 0) by lra.
  assert (Ey : (ay - b_y) * (ay - b_y) = 0) by lra.
  assert (Ez : (az - bz) * (az - bz) = 0) by lra.
  apply Rsqr_0_uniq in Ex, Ey, Ez.
  f_equal; lra.
Qed.

(** A step of rate [alpha] multiplies the squared distance to the
    target by [(1 - alpha)²]. *)
Lemma sqDist_lerp (a b : t) (alpha : R) :
  distanceToSquared (lerp a b alpha) b
  = (1 - alpha) * (1 - alpha) * distanceToSquared a b.
Proof. unfold distanceToSquared, lerp. cbn. ring. Qed.

(** ... and the distance by [1 - alpha], for a rate of at most 1. *)
Lemma distanceTo_lerp (a b : t) (alpha : R) :
  alpha <= 1 ->
  distanceTo (lerp a b alpha) b = (1 - alpha) * distanceTo a b.
Proof.
  intros Ha. unfold distanceTo. rewrite sqDist_lerp.
  rewrite sqrt_mult_alt by nra.
  rewrite sqrt_square by lra. reflexivity.
Qed.

Lemma distanceTo_pos (a b : t) : a <> b -> 0 < distanceTo a b.
Proof.
  intros Hne. unfold distanceTo. apply sqrt_lt_R0.
  destruct (sqDist_nonneg a b) as [Hlt | Heq]; [exact Hlt|].
  exfalso. apply Hne, sqDist_zero_eq. symmetry. exact Heq.
Qed.

Lemma distanceTo_self (a : t) : distanceTo a a = 0.
Proof.
  unfold distanceTo, distanceToSquared. cbv zeta.
  replace (_ + _ + _) with 0 by ring. apply sqrt_0.
Qed.

Lemma lerp_fixed (a : t) (alpha : R) : lerp a a alpha = a.
Proof. destruct a. unfold lerp. cbn. f_equal; ring. Qed.

End LerpFacts.

(** C1. Under a fixed mode and a delta-time [dt] with [dt * speed]
    strictly between 0 and 1, a call of [Particle.update] strictly
    decreases the Euclidean distance from the position of the particle
    to the target of the mode, [posTree] in assembled mode and
    [posScatter] in dispersed mode, unless the position already is the
    target (the meaning of "within tolerance" in exact arithmetic),
    where it stays.  The call moves neither target. *)
Theorem update_strictly_closer
    (p : Particle) (dt : R) (isTreeMode : bool) (time : R) (ms : MaterialStore) :
  0 < dt ->
  0 < dt * speed (type p) isTreeMode < 1 ->
  let p' := fst (update p dt isTreeMode time ms) in
  let goal := if isTreeMode then posTree p else posScatter p in
  (posTree p' = posTree p /\ posScatter p' = posScatter p)
  /\ (position (mesh p) <> goal ->
      Vector3.distanceTo (position (mesh p')) goal
      < Vector3.distanceTo (position (mesh p)) goal)
  /\ (position (mesh p) = goal -> position (mesh p') = goal).
Proof.
  intros Hdt Hrate p' goal.
  destruct (update_immutable p dt isTreeMode time ms) as (Ht & Hs & _).
  split; [split; assumption |].
  assert (Hpos : position (mesh p')
                 = Vector3.lerp (position (mesh p)) goal
                                (dt * speed (type p) isTreeMode)).
  { unfold p', goal. rewrite update_position. unfold target.
    destruct isTreeMode; reflexivity. }
  rewrite Hpos. split.
  - intros Hne. rewrite LerpFacts.distanceTo_lerp by lra.
    pose proof (LerpFacts.distanceTo_pos _ _ Hne). nra.
  - intros Heq. rewrite Heq. apply LerpFacts.lerp_fixed.
Qed.

Example update_strictly_closer_witness :
  let p := mkParticle (newMesh matLeafMid) (Vector3.mk 1 0 0)
                      (Vector3.mk (-40) 0 0)
                      1 Vector3.zero 0 leaf (materialColor matLeafMid) in
  Vector3.distanceTo
    (position (mesh (fst (update p 0.1 true 0 initialMaterials)))) (posTree p)
  < Vector3.distanceTo (position (mesh p)) (posTree p)
  /\ Vector3.distanceTo
       (position (mesh (fst (update p 0.1 false 0 initialMaterials))))
       (posScatter p)
     < Vector3.distanceTo (position (mesh p)) (posScatter p).
Proof.
  intros p. split.
  - destruct (update_strictly_closer p 0.1 true 0 initialMaterials)
      as (_ & Hcloser & _).
    + lra.
    + unfold speed; cbn; lra.
    + apply Hcloser. cbn. intros H. inversion H. lra.
  - destruct (update_strictly_closer p 0.1 false 0 initialMaterials)
      as (_ & Hcloser & _).
    + lra.
    + unfold speed; cbn; lra.
    + apply Hcloser. cbn. intros H. inversion H. lra.
Defined.

(** ** Effects by category *)

Lemma blink_range (p : Particle) (time : R) : 0 <= blink p time <= 1.
Proof.
  unfold blink. pose proof (SIN_bound (time * 3 + phase p)). lra.
Qed.

Lemma setEmissiveIntensity_same (ms : MaterialStore) (m : MaterialId) (v : R) :
  setEmissiveIntensity ms m v m = Some v.
Proof.
  unfold setEmissiveIntensity. destruct (MaterialId_eq_dec m m); congruence.
Qed.

Lemma update_light
    (p : Particle) (dt : R) (isTreeMode : bool) (time : R) (ms : MaterialStore) :
  type p = light ->
  let r := update p dt isTreeMode time ms in
  emissiveIntensity (snd r) (fst r) = Some (0.5 + blink p time * 1.5)
  /\ scale (mesh (fst r))
     = Vector3.mk (initialScale p * (0.8 + blink p time * 0.4))
                  (initialScale p * (0.8 + blink p time * 0.4))
                  (initialScale p * (0.8 + blink p time * 0.4)).
Proof.
  intros Hty. unfold update, emissiveIntensity. rewrite Hty. cbn.
  split; [apply setEmissiveIntensity_same | reflexivity].
Qed.

Lemma update_star
    (p : Particle) (dt : R) (isTreeMode : bool) (time : R) (ms : MaterialStore) :
  type p = star ->
  let r := update p dt isTreeMode time ms in
  emissiveIntensity (snd r) (fst r) = Some (1.0 + sin (time * 4) * 0.5)
  /\ scale (mesh (fst r))
     = Vector3.mk (initialScale p * (1.0 + sin (time * 2) * 0.2))
                  (initialScale p * (1.0 + sin (time * 2) * 0.2))
                  (initialScale p * (1.0 + sin (time * 2) * 0.2)).
Proof.
  intros Hty. unfold update, emissiveIntensity, pulse. rewrite Hty. cbn.
  split; [apply setEmissiveIntensity_same |].
  unfold Vector3.setScalar.
  replace (sin (time * 2) * 0.2 + 1.0) with (1.0 + sin (time * 2) * 0.2) by ring.
  reflexivity.
Qed.

(** What the call does to a particle that is neither a light nor the
    star: the scale and the whole material store are as before. *)
Lemma update_other
    (p : Particle) (dt : R) (isTreeMode : bool) (time : R) (ms : MaterialStore) :
  type p <> light -> type p <> star ->
  let r := update p dt isTreeMode time ms in
  scale (mesh (fst r)) = scale (mesh p) /\ snd r = ms.
Proof.
  intros Hl Hs. unfold update.
  rewrite (ParticleType_eqb_neq _ _ Hl), (ParticleType_eqb_neq _ _ Hs).
  destruct (ParticleType_eqb (type p) snow); split; reflexivity.
Qed.

(** C4. For a light, and every time and phase, the emissive intensity
    that [Particle.update] sets is [0.5 + blink * 1.5] and lies in
    [[0.5, 2.0]]; for the star, and every time, it is
    [1.0 + sin (time * 4) * 0.5] and lies in [[0.5, 1.5]]. *)
Theorem update_emissive_bounds
    (p : Particle) (dt : R) (isTreeMode : bool) (time : R) (ms : MaterialStore) :
  let r := update p dt isTreeMode time ms in
  (type p = light ->
   exists v, emissiveIntensity (snd r) (fst r) = Some v
             /\ v = 0.5 + (sin (time * 3 + phase p) * 0.5 + 0.5) * 1.5
             /\ 0.5 <= v <= 2.0)
  /\ (type p = star ->
      exists v, emissiveIntensity (snd r) (fst r) = Some v
                /\ v = 1.0 + sin (time * 4) * 0.5
                /\ 0.5 <= v <= 1.5).
Proof.
  intros r. split; intros Hty.
  - exists (0.5 + blink p time * 1.5). split; [|split].
    + apply (update_light p dt isTreeMode time ms Hty).
    + reflexivity.
    + pose proof (blink_range p time). lra.
  - exists (1.0 + sin (time * 4) * 0.5). split; [|split].
    + apply (update_star p dt isTreeMode time ms Hty).
    + reflexivity.
    + pose proof (SIN_bound (time * 4)). lra.
Qed.

Example update_emissive_bounds_witness :
  let p := mkParticle (newMesh matLightWarm) Vector3.zero (Vector3.mk 40 0 0)
                      0.25 Vector3.zero 1 light (materialColor matLightWarm) in
  let r := update p 0.016 true 2 initialMaterials in
  exists v, emissiveIntensity (snd r) (fst r) = Some v
            /\ v = 0.5 + (sin (2 * 3 + phase p) * 0.5 + 0.5) * 1.5
            /\ 0.5 <= v <= 2.0.
Proof.
  intros p r.
  apply (update_emissive_bounds p 0.016 true 2 initialMaterials).
  reflexivity.
Defined.

(** ** The scale baseline *)

Lemma runFrames_app (fs gs : list Frame) (p : Particle) (ms : MaterialStore) :
  runFrames (fs ++ gs) p ms
  = runFrames gs (fst (runFrames fs p ms)) (snd (runFrames fs p ms)).
Proof.
  revert p ms. induction fs as [| [[dt b] tm] fs IH]; intros p ms; cbn.
  - reflexivity.
  - destruct (update p dt b tm ms) as [p' ms']. apply IH.
Qed.

Lemma sameImmutable_trans (p q r : Particle) :
  sameImmutable p q -> sameImmutable q r -> sameImmutable p r.
Proof. unfold sameImmutable. intuition congruence. Qed.

Lemma runFrames_immutable (fs : list Frame) (p : Particle) (ms : MaterialStore) :
  sameImmutable (fst (runFrames fs p ms)) p.
Proof.
  revert p ms. induction fs as [| [[dt b] tm] fs IH]; intros p ms; cbn.
  - unfold sameImmutable. intuition.
  - pose proof (update_immutable p dt b tm ms) as Hu.
    destruct (update p dt b tm ms) as [p' ms']. cbn in Hu.
    eapply sameImmutable_trans; [apply IH | exact Hu].
Qed.

Lemma runFrames_scale_other (fs : list Frame) (p : Particle) (ms : MaterialStore) :
  type p <> light -> type p <> star ->
  scale (mesh (fst (runFrames fs p ms))) = scale (mesh p).
Proof.
  revert p ms. induction fs as [| [[dt b] tm] fs IH]; intros p ms Hl Hs; cbn.
  - reflexivity.
  - pose proof (update_immutable p dt b tm ms) as (_ & _ & _ & _ & _ & Hty).
    pose proof (update_other p dt b tm ms Hl Hs) as [Hsc _].
    destruct (update p dt b tm ms) as [p' ms']. cbn in Hty, Hsc.
    rewrite IH by congruence. exact Hsc.
Qed.

(** C5. [initialScale] keeps the value given by the constructor through
    any number of calls of [Particle.update]; the scale a call assigns
    (light: [initialScale * (0.8 + blink * 0.4)], star:
    [initialScale * (1.0 + sin (time * 2) * 0.2)]) depends on
    [initialScale], the time and the phase only, whatever frames came
    before, so that the scale does not compound; the other categories
    keep the scale they had. *)
Theorem initialScale_is_the_baseline
    (earlier : list Frame) (p : Particle) (ms : MaterialStore)
    (dt : R) (isTreeMode : bool) (time : R) :
  let q := fst (runFrames (earlier ++ [(dt, isTreeMode, time)]) p ms) in
  initialScale q = initialScale p
  /\ match type p with
     | light =>
         let s := initialScale p
                  * (0.8 + (sin (time * 3 + phase p) * 0.5 + 0.5) * 0.4) in
         scale (mesh q) = Vector3.mk s s s
     | star =>
         let s := initialScale p * (1.0 + sin (time * 2) * 0.2) in
         scale (mesh q) = Vector3.mk s s s
     | _ => scale (mesh q) = scale (mesh p)
     end.
Proof.
  intros q. split.
  - apply (runFrames_immutable _ p ms).
  - unfold q. clear q. rewrite runFrames_app. cbn.
    pose proof (runFrames_immutable earlier p ms) as (_ & _ & Hi & _ & Hph & Hty).
    pose proof (runFrames_scale_other earlier p ms) as Hsc.
    destruct (runFrames earlier p ms) as [q ns]. cbn in *.
    pose proof (update_light q dt isTreeMode time ns) as Hlight.
    pose proof (update_star q dt isTreeMode time ns) as Hstar.
    pose proof (update_other q dt isTreeMode time ns) as Hother.
    destruct (update q dt isTreeMode time ns) as [q' ns']. cbn in *.
    unfold blink in Hlight. rewrite Hi, Hph in Hlight. rewrite Hi in Hstar.
    destruct (type p) eqn:Ep; rewrite Hty in *;
      try (apply Hlight; reflexivity);
      try (apply Hstar; reflexivity);
      (destruct Hother as [Ho _]; [discriminate | discriminate |];
       rewrite Ho; apply Hsc; discriminate).
Qed.

(** ** Frame of the call *)

(** C8. For a leaf, an ornament or a trunk particle, a call of
    [Particle.update] changes the position of the mesh (the
    interpolation step) and its three rotation angles (each by the
    rotation speed of its axis) and nothing else: the scale of the mesh,
    its material and the emissive intensity of every material are as
    before. *)
Theorem update_leaf_ornament_trunk
    (p : Particle) (dt : R) (isTreeMode : bool) (time : R) (ms : MaterialStore) :
  type p = leaf \/ type p = ornament \/ type p = trunk ->
  update p dt isTreeMode time ms
  = (withMesh p
       (mkMesh (Vector3.lerp (position (mesh p)) (target p isTreeMode)
                             (dt * speed (type p) isTreeMode))
               (Vector3.mk
                  (Vector3.x (rotation (mesh p)) + Vector3.x (rotationSpeed p))
                  (Vector3.y (rotation (mesh p)) + Vector3.y (rotationSpeed p))
                  (Vector3.z (rotation (mesh p)) + Vector3.z (rotationSpeed p)))
               (scale (mesh p))
               (material (mesh p))),
     ms)
  /\ scale (mesh (fst (update p dt isTreeMode time ms))) = scale (mesh p)
  /\ (forall m, snd (update p dt isTreeMode time ms) m = ms m).
Proof.
  intros Hty.
  assert (E : update p dt isTreeMode time ms
              = (withMesh p
                   (mkMesh (Vector3.lerp (position (mesh p)) (target p isTreeMode)
                                         (dt * speed (type p) isTreeMode))
                           (Vector3.mk
                              (Vector3.x (rotation (mesh p)) + Vector3.x (rotationSpeed p))
                              (Vector3.y (rotation (mesh p)) + Vector3.y (rotationSpeed p))
                              (Vector3.z (rotation (mesh p)) + Vector3.z (rotationSpeed p)))
                           (scale (mesh p))
                           (material (mesh p))),
                 ms)).
  { unfold update. destruct Hty as [H | [H | H]]; rewrite H; reflexivity. }
  rewrite E. cbn. auto.
Qed.

Example update_leaf_ornament_trunk_witness :
  let p := mkParticle (newMesh matTrunk) (Vector3.mk 1 (-20) 0) (Vector3.mk 0 0 50)
                      0.3 (Vector3.mk 0.01 0 (-0.01)) 0 trunk
                      (materialColor matTrunk) in
  scale (mesh (fst (update p 0.016 false 3 initialMaterials))) = scale (mesh p)
  /\ (forall m, snd (update p 0.016 false 3 initialMaterials) m = initialMaterials m).
Proof.
  intros p.
  apply (update_leaf_ornament_trunk p 0.016 false 3 initialMaterials).
  right; right; reflexivity.
Defined.

(** ** Determinism *)

(** C9. [Particle.update] reads no random draw: its embedding takes no
    random source and no scene state.  Two particles that agree on the
    position, rotation and scale of their meshes, on the emissive
    intensity of their materials and on the fields [posTree],
    [posScatter], [initialScale], [rotationSpeed], [phase] and [type]
    agree on all of these again after a call with the same arguments,
    be their meshes, materials and material stores the same or not. *)
Theorem update_deterministic
    (p q : Particle) (ms ns : MaterialStore)
    (dt : R) (isTreeMode : bool) (time : R) :
  sameImmutable p q ->
  sameTransform (mesh p) (mesh q) ->
  emissiveIntensity ms p = emissiveIntensity ns q ->
  let r := update p dt isTreeMode time ms in
  let r' := update q dt isTreeMode time ns in
  sameImmutable (fst r) (fst r')
  /\ sameTransform (mesh (fst r)) (mesh (fst r'))
  /\ emissiveIntensity (snd r) (fst r) = emissiveIntensity (snd r') (fst r').
Proof.
  destruct p as [[ppos prot psc pmat] pt psct pis prs pph pty pbc].
  destruct q as [[qpos qrot qsc qmat] qt qsct qis qrs qph qty qbc].
  unfold sameImmutable, sameTransform, emissiveIntensity. cbn.
  intros (Ht & Hs & Hi & Hr & Hph & Hty) (Hpos & Hrot & Hsc) Hem. subst.
  unfold update, target, blink.
  destruct qty; cbn; rewrite ?setEmissiveIntensity_same; intuition.
Qed.

Example update_deterministic_witness :
  let p := mkParticle (newMesh matLightWarm) Vector3.zero (Vector3.mk 40 0 0)
                      0.25 Vector3.zero 1 light (materialColor matLightWarm) in
  let q := mkParticle (newMesh matLightColor) Vector3.zero (Vector3.mk 40 0 0)
                      0.25 Vector3.zero 1 light (materialColor matLightColor) in
  let r := update p 0.016 true 2 initialMaterials in
  let r' := update q 0.016 true 2 initialMaterials in
  sameImmutable (fst r) (fst r')
  /\ sameTransform (mesh (fst r)) (mesh (fst r'))
  /\ emissiveIntensity (snd r) (fst r) = emissiveIntensity (snd r') (fst r').
Proof.
  intros p q.
  apply (update_deterministic p q initialMaterials initialMaterials 0.016 true 2).
  - repeat split.
  - repeat split.
  - reflexivity.
Defined.

(** * Properties of the object generation *)

Section GenerationFacts.

Variable rnd : nat -> R.

Lemma bind_snd {A : Type} (c : M A) (k : A -> M unit) (s : SceneState) :
  snd (bind c k s) = snd (k (fst (c s)) (snd (c s))).
Proof. unfold bind. destruct (c s). reflexivity. Qed.

Lemma randomScatter_cursor (s : SceneState) :
  fst (randomScatter rnd s) = scatterAt rnd (cursor s).
Proof. reflexivity. Qed.

(** [addParticle] pushes one particle, placed on its tree position. *)
Lemma addParticle_pushes (m : Mesh) (pos : Vec3) (ty : ParticleType)
    (custom : option Vec3) (s : SceneState) :
  exists p,
    particles (snd (addParticle rnd m pos ty custom s)) = particles s ++ [p]
    /\ type p = ty
    /\ posTree p = pos
    /\ position (mesh p) = pos
    /\ rotation (mesh p) = rotation m
    /\ scale (mesh p) = scale m
    /\ initialScale p = Vector3.x (scale m)
    /\ posScatter p = match custom with
                      | Some c => c
                      | None => scatterAt rnd (cursor s)
                      end.
Proof.
  destruct custom as [c |]; unfold addParticle, newParticle, randomScatter,
    bind, ret, push, Math_random; cbn;
    eexists; (split; [reflexivity |]); cbn; destruct pos; repeat split.
Qed.

Lemma addParticle_appends (m : Mesh) (pos : Vec3) (ty : ParticleType)
    (custom : option Vec3) :
  match custom with
  | Some c => ty = snow /\ exists n theta phi,
                c = Vector3.mk ((80 + rnd n * 20) * sin theta * cos phi)
                               ((80 + rnd n * 20) * sin theta * sin phi)
                               ((80 + rnd n * 20) * cos theta)
  | None => ty <> snow
  end ->
  forall s, exists added,
    particles (snd (addParticle rnd m pos ty custom s)) = particles s ++ added
    /\ Forall (created rnd ty) added
    /\ length added = 1%nat.
Proof.
  intros Hc s.
  destruct (addParticle_pushes m pos ty custom s)
    as (p & Hp & Hty & Htree & Hpos & _ & _ & _ & Hsc).
  exists [p]. split; [exact Hp | split; [| reflexivity]].
  constructor; [| constructor].
  unfold created. split; [exact Hty | split; [congruence |]].
  destruct custom as [c |].
  - destruct Hc as [-> Hc]. rewrite ParticleType_eqb_refl.
    unfold snowScatter. rewrite Hsc. exact Hc.
  - rewrite (ParticleType_eqb_neq _ _ Hc). exists (cursor s). exact Hsc.
Qed.

Lemma Math_random_particles (s : SceneState) :
  particles (snd (Math_random rnd s)) = particles s.
Proof. reflexivity. Qed.

(** Runs the draws that precede [addParticle] in a loop body, then
    replaces the array after the body by what [addParticle] appends. *)
Ltac through_draws :=
  repeat (rewrite bind_snd; cbv beta zeta);
  match goal with
  | |- context [addParticle rnd ?m ?pos ?ty ?c ?s'] =>
      assert (Hcase : match c with
                      | Some v => ty = snow /\ exists n theta phi,
                          v = Vector3.mk ((80 + rnd n * 20) * sin theta * cos phi)
                                         ((80 + rnd n * 20) * sin theta * sin phi)
                                         ((80 + rnd n * 20) * cos theta)
                      | None => ty <> snow
                      end);
      [ first [ discriminate
              | split; [reflexivity | do 3 eexists; reflexivity] ]
      | destruct (addParticle_appends m pos ty c Hcase s')
          as (added & Hp & HQ & Hlen);
        rewrite Hp, ?Math_random_particles ]
  end.

Ltac one_appended :=
  through_draws;
  match goal with
  | HQ : Forall _ ?added, Hlen : length ?added = 1%nat |- _ =>
      exists added; split; [reflexivity | split; [exact HQ | lia]]
  end.

Lemma trunkBody_appends (i : nat) : appends (trunkBody rnd i) (created rnd trunk) 1 1.
Proof. intros s. unfold trunkBody. one_appended. Qed.

Lemma foliageBody_appends (i : nat) :
  appends (foliageBody rnd i) (created rnd leaf) 1 1.
Proof. intros s. unfold foliageBody. one_appended. Qed.

Lemma lightBody_appends (i : nat) :
  appends (lightBody rnd i) (created rnd light) 1 1.
Proof. intros s. unfold lightBody. one_appended. Qed.

Lemma snowBody_appends (i : nat) :
  appends (snowBody rnd i) (created rnd snow) 1 1.
Proof. intros s. unfold snowBody. one_appended. Qed.

Lemma starStep_appends : appends (starStep rnd) (created rnd star) 1 1.
Proof. intros s. unfold starStep. one_appended. Qed.

(** The skip rule of the ornament loop, on the first draw of the
    iteration. *)
Lemma ornamentBody_rule (i : nat) (s : SceneState) :
  (rnd (cursor s) <= 0.98 ->
   exists p, created rnd ornament p
             /\ particles (snd (ornamentBody rnd i s)) = particles s ++ [p])
  /\ (rnd (cursor s) > 0.98 ->
      particles (snd (ornamentBody rnd i s)) = particles s).
Proof.
  unfold ornamentBody. rewrite bind_snd. cbv beta zeta.
  change (fst (Math_random rnd s)) with (rnd (cursor s)).
  destruct (Rgt_dec (rnd (cursor s)) 0.98) as [Hgt | Hle]; split; intros Ht;
    try lra; try reflexivity.
  through_draws.
  destruct added as [| p [| ? ?]]; try discriminate.
  exists p. split; [inversion HQ; assumption | reflexivity].
Qed.

Lemma ornamentBody_appends (i : nat) :
  appends (ornamentBody rnd i) (created rnd ornament) 0 1.
Proof.
  intros s. destruct (ornamentBody_rule i s) as [Hplace Hskip].
  destruct (Rle_or_lt (rnd (cursor s)) 0.98) as [Hle | Hgt].
  - destruct (Hplace Hle) as (p & HQ & Hp).
    exists [p]. split; [exact Hp | split; [constructor; [exact HQ | constructor] | cbn; lia]].
  - exists []. rewrite app_nil_r.
    split; [apply Hskip; lra | split; [constructor | cbn; lia]].
Qed.

(** ** Loops and sequences *)

Lemma appends_forEachIndex (body : nat -> M unit) (Q : Particle -> Prop)
    (lo hi : nat) :
  (forall i, appends (body i) Q lo hi) ->
  forall l, appends (forEachIndex l body) Q (lo * length l) (hi * length l).
Proof.
  intros Hbody l. induction l as [| i l IH]; intros s; cbn [forEachIndex].
  - exists []. rewrite app_nil_r. cbn. split; [reflexivity |].
    split; [constructor | lia].
  - rewrite bind_snd.
    destruct (Hbody i s) as (a1 & Hp1 & HQ1 & Hlen1).
    destruct (IH (snd (body i s))) as (a2 & Hp2 & HQ2 & Hlen2).
    exists (a1 ++ a2). rewrite Hp2, Hp1, app_assoc.
    split; [reflexivity |]. split; [apply Forall_app; split; assumption |].
    rewrite length_app. cbn [length]. lia.
Qed.

Lemma appends_for_lt (body : nat -> M unit) (Q : Particle -> Prop)
    (lo hi n : nat) :
  (forall i, appends (body i) Q lo hi) ->
  appends (for_lt n body) Q (lo * n) (hi * n).
Proof.
  intros Hbody. unfold for_lt.
  pose proof (appends_forEachIndex body Q lo hi Hbody (seq 0 n)) as H.
  rewrite length_seq in H. exact H.
Qed.

(** The array after the generation: the six categories, in the order
    of the six parts of the source. *)
Lemma sceneParticles_structure :
  exists trunks leaves ornaments lights stars snows,
    sceneParticles rnd
    = trunks ++ leaves ++ ornaments ++ lights ++ stars ++ snows
    /\ (Forall (created rnd trunk) trunks /\ length trunks = 250%nat)
    /\ (Forall (created rnd leaf) leaves /\ length leaves = FOLIAGE_COUNT)
    /\ (Forall (created rnd ornament) ornaments
        /\ (length ornaments <= ORNAMENT_COUNT)%nat)
    /\ (Forall (created rnd light) lights /\ length lights = LIGHT_COUNT)
    /\ (Forall (created rnd star) stars /\ length stars = 1%nat)
    /\ (Forall (created rnd snow) snows /\ length snows = SNOW_COUNT).
Proof.
  unfold sceneParticles, generateObjects.
  rewrite !bind_snd.
  set (s0 := emptyScene).
  destruct (appends_for_lt _ _ 1 1 250 (trunkBody_appends) s0)
    as (a1 & H1 & Q1 & L1).
  set (s1 := snd (for_lt 250 (trunkBody rnd) s0)) in *.
  destruct (appends_for_lt _ _ 1 1 FOLIAGE_COUNT (foliageBody_appends) s1)
    as (a2 & H2 & Q2 & L2).
  set (s2 := snd (for_lt FOLIAGE_COUNT (foliageBody rnd) s1)) in *.
  destruct (appends_for_lt _ _ 0 1 ORNAMENT_COUNT (ornamentBody_appends) s2)
    as (a3 & H3 & Q3 & L3).
  set (s3 := snd (for_lt ORNAMENT_COUNT (ornamentBody rnd) s2)) in *.
  destruct (appends_for_lt _ _ 1 1 LIGHT_COUNT (lightBody_appends) s3)
    as (a4 & H4 & Q4 & L4).
  set (s4 := snd (for_lt LIGHT_COUNT (lightBody rnd) s3)) in *.
  destruct (starStep_appends s4) as (a5 & H5 & Q5 & L5).
  set (s5 := snd (starStep rnd s4)) in *.
  destruct (appends_for_lt _ _ 1 1 SNOW_COUNT (snowBody_appends) s5)
    as (a6 & H6 & Q6 & L6).
  exists a1, a2, a3, a4, a5, a6.
  rewrite H6, H5, H4, H3, H2, H1. cbn [particles s0 emptyScene app].
  rewrite <- !app_assoc.
  rewrite !Nat.mul_1_l in *.
  repeat split; try assumption; lia.
Qed.

End GenerationFacts.

(** ** Scatter targets *)

(** A point given by a radius and two angles is at that radius from the
    origin. *)
Lemma spherical_length (r a b : R) :
  0 <= r ->
  Vector3.length (Vector3.mk (r * sin a * cos b) (r * sin a * sin b) (r * cos a))
  = r.
Proof.
  intros Hr. unfold Vector3.length. cbn.
  pose proof (sin2_cos2 a) as Ha. pose proof (sin2_cos2 b) as Hb.
  unfold Rsqr in Ha, Hb.
  replace (r * sin a * cos b * (r * sin a * cos b)
           + r * sin a * sin b * (r * sin a * sin b)
           + r * cos a * (r * cos a))
    with (r * r * (sin a * sin a * (sin b * sin b + cos b * cos b)
                   + cos a * cos a)) by ring.
  rewrite Hb, Rmult_1_r, Ha, Rmult_1_r.
  apply sqrt_square. exact Hr.
Qed.

Lemma scatterAt_length (rnd : nat -> R) (n : nat) :
  0 <= rnd n ->
  Vector3.length (scatterAt rnd n) = 35 + rnd n * 30.
Proof.
  intros Hn. unfold scatterAt, randomScatter, bind, ret, Math_random. cbn.
  apply spherical_length. lra.
Qed.

Lemma created_radius (rnd : nat -> R) (ty : ParticleType) (p : Particle) :
  (forall n, 0 <= rnd n < 1) ->
  created rnd ty p ->
  (type p <> snow ->
   defaultScatter rnd p /\ 35 <= Vector3.length (posScatter p) <= 65)
  /\ (type p = snow -> 80 <= Vector3.length (posScatter p) <= 100).
Proof.
  intros Hrnd (Hty & _ & Hsc). subst ty.
  destruct (ParticleType_eq_dec (type p) snow) as [Hs | Hs].
  - rewrite Hs, ParticleType_eqb_refl in Hsc.
    split; [intros Hn; contradiction | intros _].
    destruct Hsc as (n & theta & phi & ->).
    pose proof (Hrnd n). rewrite spherical_length by lra. lra.
  - rewrite (ParticleType_eqb_neq _ _ Hs) in Hsc.
    split; [intros _ | intros Hn; contradiction].
    split; [exact Hsc |]. destruct Hsc as (n & ->).
    pose proof (Hrnd n). rewrite scatterAt_length by lra. lra.
Qed.

(** C3, amended.  Every scatter target generated for a trunk, leaf,
    ornament or light particle or for the star comes from the default
    rule of [addParticle] (a radius drawn in [[35, 65)] times a
    direction) and every scatter target of a snow particle from the rule
    of the snow loop (radius drawn in [[80, 100)]); the norm of the
    target is the drawn radius up to rounding: at least [35 - 1e-9] and
    at most [65 + 1e-9] for the default rule, at least [80 - 1e-9] and
    at most [100 + 1e-9] for the snow.  The star is in the array with a
    target of the default rule. *)
Theorem scatter_targets_radius (rnd : nat -> R) :
  (forall n, 0 <= rnd n < 1) ->
  Forall (fun p =>
            (type p <> snow ->
             defaultScatter rnd p
             /\ 35 - 1e-9 <= Vector3.length (posScatter p) <= 65 + 1e-9)
            /\ (type p = snow ->
                80 - 1e-9 <= Vector3.length (posScatter p) <= 100 + 1e-9))
         (sceneParticles rnd)
  /\ exists e, In e (sceneParticles rnd) /\ type e = star
               /\ defaultScatter rnd e
               /\ 35 - 1e-9 <= Vector3.length (posScatter e).
Proof.
  intros Hrnd.
  destruct (sceneParticles_structure rnd)
    as (a1 & a2 & a3 & a4 & a5 & a6 & -> & [Q1 _] & [Q2 _] & [Q3 _] & [Q4 _]
        & [Q5 L5] & [Q6 _]).
  assert (Hslack : forall ty p, created rnd ty p ->
            (type p <> snow ->
             defaultScatter rnd p
             /\ 35 - 1e-9 <= Vector3.length (posScatter p) <= 65 + 1e-9)
            /\ (type p = snow ->
                80 - 1e-9 <= Vector3.length (posScatter p) <= 100 + 1e-9)).
  { intros ty p Hp. destruct (created_radius rnd ty p Hrnd Hp) as [Hd Hs].
    split.
    - intros Hn. destruct (Hd Hn) as [Hdef Hlen]. split; [exact Hdef | lra].
    - intros Hsn. specialize (Hs Hsn). lra. }
  split.
  - repeat (apply Forall_app; split);
      (eapply Forall_impl; [| eassumption]);
      intros p Hp; exact (Hslack _ p Hp).
  - destruct a5 as [| e [| ? ?]]; try discriminate.
    inversion Q5 as [| ? ? He _]; subst.
    exists e. split; [| split].
    + rewrite !in_app_iff. do 4 right. left. left. reflexivity.
    + apply He.
    + destruct (Hslack _ e He) as [Hd _].
      destruct He as (Hty & _).
      destruct Hd as [Hd Hlen]; [congruence |]. split; [exact Hd | lra].
Qed.

Example scatter_targets_radius_witness :
  Forall (fun p =>
            (type p <> snow ->
             defaultScatter (fun _ => 0.5) p
             /\ 35 - 1e-9 <= Vector3.length (posScatter p) <= 65 + 1e-9)
            /\ (type p = snow ->
                80 - 1e-9 <= Vector3.length (posScatter p) <= 100 + 1e-9))
         (sceneParticles (fun _ => 0.5))
  /\ exists e, In e (sceneParticles (fun _ => 0.5)) /\ type e = star
               /\ defaultScatter (fun _ => 0.5) e
               /\ 35 - 1e-9 <= Vector3.length (posScatter e).
Proof.
  apply (scatter_targets_radius (fun _ => 0.5)).
  intros n. lra.
Defined.

(** ** Enclosures of sine, cosine and arc cosine *)

Module SeriesFacts.
Import QArith_base Qreduction Qreals Series.

(** The definitions on [Q] are those of the Standard Library on [R]. *)
Lemma zfact_fact (n : nat) : zfact n = Z.of_nat (fact n).
Proof.
  induction n as [|n IH]; [reflexivity|].
  change (fact (S n)) with (S n * fact n)%nat.
  rewrite Nat2Z.inj_mul, <- IH. reflexivity.
Qed.

Lemma zfact_pos (n : nat) : (0 < zfact n)%Z.
Proof. rewrite zfact_fact. pose proof (lt_O_fact n). lia. Qed.

Lemma Q2R_zfact (n : nat) : Q2R (inject_Z (zfact n)) = INR (fact n).
Proof.
  rewrite zfact_fact, INR_IZR_INZ.
  unfold Q2R, inject_Z. cbn. lra.
Qed.

Lemma Q2R_qpow (q : Q) (n : nat) : Q2R (qpow q n) = (Q2R q ^ n)%R.
Proof.
  induction n as [|n IH]; cbn [qpow pow].
  - unfold Q2R. cbn. lra.
  - rewrite Q2R_mult, IH. reflexivity.
Qed.

Lemma Q2R_minus_one : Q2R (-1) = (-1)%R.
Proof. unfold Q2R. cbn. lra. Qed.

Lemma zfact_nonzero (n : nat) : ~ (inject_Z (zfact n) == 0)%Q.
Proof.
  unfold Qeq, inject_Z. cbn. pose proof (zfact_pos n). lia.
Qed.

Lemma Q2R_sinTerm (a : Q) (i : nat) :
  Q2R (sinTerm a i) = sin_term (Q2R a) i.
Proof.
  unfold sinTerm, sin_term.
  rewrite Q2R_mult, Q2R_div by apply zfact_nonzero.
  rewrite !Q2R_qpow, Q2R_zfact, Q2R_minus_one. reflexivity.
Qed.

Lemma Q2R_cosTerm (a : Q) (i : nat) :
  Q2R (cosTerm a i) = cos_term (Q2R a) i.
Proof.
  unfold cosTerm, cos_term.
  rewrite Q2R_mult, Q2R_div by apply zfact_nonzero.
  rewrite !Q2R_qpow, Q2R_zfact, Q2R_minus_one. reflexivity.
Qed.

Lemma Q2R_sumQ (f : nat -> Q) (g : nat -> R) (n : nat) :
  (forall i, Q2R (f i) = g i) -> Q2R (sumQ f n) = sum_f_R0 g n.
Proof.
  intros Hfg. induction n as [|n IH]; cbn [sumQ sum_f_R0].
  - apply Hfg.
  - rewrite (Qeq_eqR _ _ (Qred_correct _)), Q2R_plus, IH, Hfg. reflexivity.
Qed.

Lemma Q2R_sinApprox (a : Q) (n : nat) :
  Q2R (sinApprox a n) = sin_approx (Q2R a) n.
Proof. apply Q2R_sumQ, Q2R_sinTerm. Qed.

Lemma Q2R_cosApprox (a : Q) (n : nat) :
  Q2R (cosApprox a n) = cos_approx (Q2R a) n.
Proof. apply Q2R_sumQ, Q2R_cosTerm. Qed.

Lemma Q2R_four : Q2R 4 = 4%R.
Proof. unfold Q2R. cbn. lra. Qed.

Lemma Q2R_two : Q2R 2 = 2%R.
Proof. unfold Q2R. cbn. lra. Qed.

Lemma Q2R_one : Q2R 1 = 1%R.
Proof. unfold Q2R. cbn. lra. Qed.

Lemma Q2R_half (a : Q) : Q2R (half a) = (Q2R a / 2)%R.
Proof. unfold half. rewrite Q2R_mult. unfold Q2R at 2. cbn. lra. Qed.

(** The sine of an angle in [[0, 4]] lies between two partial sums of
    its series, an odd one below and the next even one above. *)
Lemma sin_between (a lo hi : Q) (n : nat) :
  (0 <= a)%Q -> (a <= 4)%Q ->
  (lo < sinApprox a (2 * n + 1))%Q -> (sinApprox a (2 * (n + 1)) < hi)%Q ->
  (Q2R lo < sin (Q2R a) < Q2R hi)%R.
Proof.
  intros H0 H4 Hlo Hhi.
  apply Qle_Rle in H0, H4. apply Qlt_Rlt in Hlo, Hhi.
  rewrite RMicromega.Q2R_0 in H0. rewrite Q2R_four in H4.
  rewrite Q2R_sinApprox in Hlo, Hhi.
  pose proof (pre_sin_bound (Q2R a) n H0 H4). lra.
Qed.

(** So does the cosine of an angle in [[0, 2]]. *)
Lemma cos_between (a lo hi : Q) (n : nat) :
  (0 <= a)%Q -> (a <= 2)%Q ->
  (lo < cosApprox a (2 * n + 1))%Q -> (cosApprox a (2 * (n + 1)) < hi)%Q ->
  (Q2R lo < cos (Q2R a) < Q2R hi)%R.
Proof.
  intros H0 H2 Hlo Hhi.
  apply Qle_Rle in H0, H2. apply Qlt_Rlt in Hlo, Hhi.
  rewrite RMicromega.Q2R_0 in H0. rewrite Q2R_two in H2.
  rewrite Q2R_cosApprox in Hlo, Hhi.
  assert (Hm : (- 2 <= Q2R a)%R) by lra.
  pose proof (pre_cos_bound (Q2R a) n Hm H2). lra.
Qed.

Lemma Q2R_doubled (c : Q) : Q2R (doubled c) = (2 * Q2R c * Q2R c - 1)%R.
Proof.
  unfold doubled. rewrite Q2R_minus, !Q2R_mult, Q2R_two, Q2R_one.
  reflexivity.
Qed.

(** Beyond 2 and up to 4 the cosine is taken from the half angle, whose
    cosine here is not negative. *)
Lemma cos_double_between (a lo hi : Q) (n : nat) :
  (0 <= a)%Q -> (a <= 4)%Q ->
  (0 <= cosApprox (half a) (2 * n + 1))%Q ->
  (lo < doubled (cosApprox (half a) (2 * n + 1)))%Q ->
  (doubled (cosApprox (half a) (2 * (n + 1))) < hi)%Q ->
  (Q2R lo < cos (Q2R a) < Q2R hi)%R.
Proof.
  intros H0 H4 Hpos Hlo Hhi.
  apply Qle_Rle in H0, H4, Hpos. apply Qlt_Rlt in Hlo, Hhi.
  rewrite RMicromega.Q2R_0 in H0, Hpos. rewrite Q2R_four in H4.
  rewrite Q2R_doubled in Hlo, Hhi.
  rewrite Q2R_cosApprox, Q2R_half in Hpos, Hlo, Hhi.
  assert (Hm : (- 2 <= Q2R a / 2)%R) by lra.
  assert (H2 : (Q2R a / 2 <= 2)%R) by lra.
  pose proof (pre_cos_bound (Q2R a / 2) n Hm H2) as [Hl Hh].
  assert (E : cos (Q2R a) = (2 * cos (Q2R a / 2) * cos (Q2R a / 2) - 1)%R).
  { rewrite <- cos_2a_cos. f_equal. lra. }
  rewrite E.
  set (c := cos (Q2R a / 2)) in *.
  set (l := cos_approx (Q2R a / 2) (2 * n + 1)) in *.
  set (h := cos_approx (Q2R a / 2) (2 * (n + 1))) in *.
  split; nra.
Qed.

(** The arc cosine lies between two angles whose cosines enclose its
    argument: the cosine decreases on [[0, PI]]. *)
Lemma acos_between (x lo hi : R) :
  (-1 <= x <= 1)%R -> (0 <= lo)%R -> (hi <= 3)%R -> (lo <= hi)%R ->
  (cos hi < x < cos lo)%R -> (lo < acos x < hi)%R.
Proof.
  intros Hx H0 H3 Hle [Hhi Hlo].
  pose proof PI2_3_2 as Hpi. unfold PI2 in Hpi.
  pose proof (acos_bound x) as Hb.
  rewrite <- (cos_acos x Hx) in Hhi, Hlo.
  split; apply cos_decreasing_0; try assumption; lra.
Qed.
End SeriesFacts.

(** ** The stored scatter targets *)

Module Binary64Facts.

Import PrimFloat QArith_base Qreals Binary64 Series SeriesFacts.

(** A stored vector is shorter than [b] when the squares of its three
    coordinates, as rationals, add up to less than the square of [b]. *)
Lemma length_below (v : Vector3F) (b : Q) :
  (0 <= b)%Q ->
  (F2Q (fx v) * F2Q (fx v) + F2Q (fy v) * F2Q (fy v)
   + F2Q (fz v) * F2Q (fz v) < b * b)%Q ->
  (Vector3.length (toVec3 v) < Q2R b)%R.
Proof.
  intros Hb Hlt. unfold Vector3.length, toVec3, F2R. cbn.
  apply Qlt_Rlt in Hlt. apply Qle_Rle in Hb.
  rewrite !Q2R_plus, !Q2R_mult in Hlt.
  rewrite RMicromega.Q2R_0 in Hb.
  rewrite <- (sqrt_square (Q2R b)) by exact Hb.
  apply sqrt_lt_1_alt. split; [| exact Hlt].
  set (a := Q2R (F2Q (fx v))). set (c := Q2R (F2Q (fy v))).
  set (d := Q2R (F2Q (fz v))). nra.
Qed.

Lemma Q2R_whole (n : Z) : Q2R (inject_Z n) = IZR n.
Proof. unfold Q2R, inject_Z. cbn. lra. Qed.

Ltac qdecide := vm_compute; solve [reflexivity | discriminate].

Ltac sine_brackets n :=
  split; [vm_compute; reflexivity |];
  unfold F2R; apply (sin_between _ _ _ n); qdecide.

Ltac cosine_brackets n :=
  split; [vm_compute; reflexivity |];
  unfold F2R; apply (cos_between _ _ _ n); qdecide.

Ltac cosine_brackets_doubling n :=
  split; [vm_compute; reflexivity |];
  unfold F2R; apply (cos_double_between _ _ _ n); qdecide.

(** The tables of [Binary64] hold, for each value the two computations
    ask of the engine, the two doubles next to the exact value. *)
Lemma snow_engine_values :
  brackets (sin (F2R snowTheta)) snowSines
  /\ brackets (cos (F2R snowTheta)) snowCosines.
Proof.
  split.
  - sine_brackets 4%nat.
  - cosine_brackets 4%nat.
Qed.

Lemma default_theta_values :
  brackets (sin (F2R defaultTheta)) defaultThetaSines
  /\ brackets (cos (F2R defaultTheta)) defaultThetaCosines.
Proof.
  split.
  - sine_brackets 8%nat.
  - cosine_brackets_doubling 6%nat.
Qed.

Lemma default_phi_values :
  Forall (fun '(phi, sines, cosines) =>
            brackets (sin (F2R phi)) sines
            /\ brackets (cos (F2R phi)) cosines)
         defaultPhis.
Proof.
  repeat apply Forall_cons; try apply Forall_nil.
  - split; [sine_brackets 6%nat | cosine_brackets 6%nat].
  - split; [sine_brackets 6%nat | cosine_brackets 6%nat].
Qed.

Lemma default_acos_values :
  brackets (acos (F2R defaultAcosArg)) (map (fun e => fst (fst e)) defaultPhis).
Proof.
  pose proof default_phi_values as H.
  unfold defaultPhis in *.
  pose proof (Forall_inv H) as H1.
  pose proof (Forall_inv (Forall_inv_tail H)) as H2.
  cbv beta iota delta [brackets] in H1, H2.
  destruct H1 as [_ [_ [Hc1 _]]]. destruct H2 as [_ [_ [_ Hc2]]].
  cbn [map fst].
  split; [vm_compute; reflexivity |].
  apply acos_between.
  - unfold F2R. rewrite <- (Q2R_whole (-1)), <- (Q2R_whole 1).
    split; apply Qle_Rle; qdecide.
  - unfold F2R. rewrite <- (Q2R_whole 0). apply Qle_Rle; qdecide.
  - unfold F2R. rewrite <- (Q2R_whole 3). apply Qle_Rle; qdecide.
  - unfold F2R. apply Qle_Rle; qdecide.
  - split.
    + apply Rlt_le_trans with (1 := Hc2).
      unfold F2R. apply Qle_Rle; qdecide.
    + apply Rle_lt_trans with (2 := Hc1).
      unfold F2R. apply Qle_Rle; qdecide.
Qed.
Ltac below radius :=
  cbv zeta; split;
  [ rewrite <- (Q2R_whole radius);
    apply length_below; vm_compute; [discriminate | reflexivity]
  | vm_compute; reflexivity ].

Ltac each_engine radius :=
  cbv [defaultEngines snowEngines defaultPhis defaultThetaSines
       defaultThetaCosines snowSines snowCosines flat_map map app];
  repeat (apply Forall_cons; [below radius |]); apply Forall_nil.

(** The tables are used: at the draws of the counterexample no engine
    of the lists answers [NaN]. *)
Example default_first_engine :
  map (fun L => randomScatter L 0 defaultDrawTheta defaultDrawPhi)
      (firstn 1 defaultEngines)
  = [mkF (-0x1.0799a3bb707d1p+5) 0x1.794544538eb90p+3
         (-0x1.17fffffffffe0p-1)].
Proof. vm_compute. reflexivity. Qed.

Example snow_first_engine :
  map (fun L => snowScatter L 0 0 snowDraw) (firstn 1 snowEngines)
  = [mkF 0x1.018ee4a88bc37p+5 0 0x1.24f18f0ef4936p+6].
Proof. vm_compute. reflexivity. Qed.

(** C3 as the specification words it fails in the arithmetic of the
    source.  The scatter target that [addParticle] stores for the draws
    0, 57/128 and 63/128 is closer to the origin than 35, and the
    scatter target that the snow loop stores for the draws 0, 0 and
    135/1024 is closer than 80, whichever of the doubles next to the
    exact sines, cosines and arc cosine the engine returns; so says the
    exact norm of the stored vector, and so says [length()]. *)
Lemma scatter_norm_below_radius :
  Forall (fun L =>
            let v := randomScatter L 0 defaultDrawTheta defaultDrawPhi in
            (Vector3.length (toVec3 v) < 35)%R
            /\ (Binary64.length v <? 35)%float = true)
         defaultEngines
  /\ Forall (fun L =>
               let v := snowScatter L 0 0 snowDraw in
               (Vector3.length (toVec3 v) < 80)%R
               /\ (Binary64.length v <? 80)%float = true)
            snowEngines.
Proof.
  split.
  - each_engine 35%Z.
  - each_engine 80%Z.
Qed.

End Binary64Facts.

(** ** Initial positions *)

(** C10. [addParticle] copies the tree position into the mesh before it
    constructs the particle, so every particle of the generated scene
    has its mesh on its tree position: the scene starts assembled, at
    distance zero from the targets of the assembled mode. *)
Theorem particles_start_on_tree (rnd : nat -> R) :
  (forall m pos ty custom s,
      exists p,
        particles (snd (addParticle rnd m pos ty custom s)) = particles s ++ [p]
        /\ posTree p = pos /\ position (mesh p) = pos)
  /\ Forall (fun p =>
               position (mesh p) = posTree p
               /\ Vector3.distanceTo (position (mesh p)) (target p true) = 0)
            (sceneParticles rnd).
Proof.
  split.
  - intros m pos ty custom s.
    destruct (addParticle_pushes rnd m pos ty custom s)
      as (p & Hp & _ & Htree & Hpos & _).
    exists p. auto.
  - assert (H : forall ty p, created rnd ty p ->
                  position (mesh p) = posTree p
                  /\ Vector3.distanceTo (position (mesh p)) (target p true) = 0).
    { intros ty p (_ & Hpos & _). split; [exact Hpos |].
      unfold target. rewrite Hpos. apply LerpFacts.distanceTo_self. }
    destruct (sceneParticles_structure rnd)
      as (a1 & a2 & a3 & a4 & a5 & a6 & -> & [Q1 _] & [Q2 _] & [Q3 _] & [Q4 _]
          & [Q5 _] & [Q6 _]).
    repeat (apply Forall_app; split);
      (eapply Forall_impl; [| eassumption]); apply H.
Qed.

(** ** Category counts *)







(** ** The branch wave of the foliage *)

Lemma PI_lower : 8 / 3 <= PI.
Proof.
  pose proof (PI_ineq 0) as [H _].
  unfold sum_f_R0, tg_alt, PI_tg in H. cbn in H. lra.
Qed.

Lemma sin_3_75_neg : sin 3.75 < 0.
Proof.
  apply sin_lt_0.
  - pose proof pi2_int. unfold PI. lra.
  - pose proof PI_lower. lra.
Qed.

Lemma Math_pow_below_one (x : R) : 0 < x < 1 -> x <= Math_pow x 0.8.
Proof.
  intros [H0 H1]. unfold Math_pow.
  destruct (Req_dec_T x 0) as [E | _]; [lra |].
  unfold Rpower. rewrite <- (exp_ln x H0) at 1.
  pose proof (ln_increasing x 1 H0 H1) as Hln. rewrite ln_1 in Hln.
  destruct (Rle_lt_or_eq_dec (ln x) (0.8 * ln x)) as [Hlt | Heq]; [lra | |].
  - left. apply exp_increasing. exact Hlt.
  - rewrite <- Heq. right. reflexivity.
Qed.

(** C7 as the specification words it ("perturbs radius outward") fails
    on instance 400 of the foliage loop with a draw of 0.9 for the
    radial fraction: the fraction exceeds 0.6, [h * 2.5] is 3.75, the
    sine is negative there and the particle is pulled inward. *)
Lemma foliage_wave_inward_counterexample :
  let t := INR 400 / INR FOLIAGE_COUNT in
  let h := t * TREE_HEIGHT in
  let maxR := TREE_WIDTH_BASE * (1 - t) in
  let rNorm := Math_pow 0.9 0.8 in
  rNorm > 0.6 /\ ~ (foliageRadius maxR rNorm h >= maxR * rNorm).
Proof.
  intros t h maxR rNorm.
  assert (Ht : t = 0.05).
  { unfold t. rewrite !INR_IZR_INZ.
    change (Z.of_nat 400) with 400%Z.
    change (Z.of_nat FOLIAGE_COUNT) with 8000%Z. lra. }
  assert (Hr : 0.9 <= rNorm) by (apply Math_pow_below_one; lra).
  split; [lra |].
  unfold foliageRadius.
  destruct (Rgt_dec rNorm 0.6) as [_ | Hn]; [| lra].
  replace (h * 2.5) with 3.75
    by (unfold h, TREE_HEIGHT; rewrite Ht; lra).
  pose proof sin_3_75_neg as Hs.
  assert (HmaxR : maxR = 13.3)
    by (unfold maxR, TREE_WIDTH_BASE; rewrite Ht; lra).
  rewrite HmaxR. nra.
Qed.

(** C7, amended.  For a radial fraction above 0.6 the radius is
    [maxR * rNorm * (1 + sin (h * 2.5) * 0.2)]: within 0.8 and 1.2 times
    the unperturbed radius [maxR * rNorm], outward where the sine is not
    negative and inward where it is negative; for a radial fraction of
    at most 0.6 the radius is unperturbed. *)
Theorem foliage_radius_wave (maxR rNorm h : R) :
  (rNorm > 0.6 ->
   foliageRadius maxR rNorm h = maxR * rNorm * (1 + sin (h * 2.5) * 0.2)
   /\ (0 <= maxR * rNorm ->
       0.8 * (maxR * rNorm) <= foliageRadius maxR rNorm h <= 1.2 * (maxR * rNorm))
   /\ (0 <= maxR * rNorm -> 0 <= sin (h * 2.5) ->
       maxR * rNorm <= foliageRadius maxR rNorm h)
   /\ (0 < maxR * rNorm -> sin (h * 2.5) < 0 ->
       foliageRadius maxR rNorm h < maxR * rNorm))
  /\ (rNorm <= 0.6 -> foliageRadius maxR rNorm h = maxR * rNorm).
Proof.
  unfold foliageRadius. pose proof (SIN_bound (h * 2.5)) as Hs.
  destruct (Rgt_dec rNorm 0.6) as [Hgt | Hle]; split; intros Hr; try lra.
  split; [f_equal; lra |].
  repeat split; intros; nra.
Qed.

Example foliage_radius_wave_witness :
  foliageRadius 10 0.7 0 = 10 * 0.7 * (1 + sin (0 * 2.5) * 0.2)
  /\ 10 * 0.7 <= foliageRadius 10 0.7 0.
Proof.
  destruct (foliage_radius_wave 10 0.7 0) as [H _].
  destruct H as (Heq & _ & Hout & _); [lra |].
  split; [exact Heq |].
  apply Hout; [lra |]. rewrite Rmult_0_l, sin_0. lra.
Defined.

(** * Further properties of Particle.update *)

(** ** Steps of any rate *)

Lemma distanceTo_lerp_any (a b : Vec3) (alpha : R) :
  Vector3.distanceTo (Vector3.lerp a b alpha) b
  = Rabs (1 - alpha) * Vector3.distanceTo a b.
Proof.
  unfold Vector3.distanceTo. rewrite LerpFacts.sqDist_lerp.
  rewrite sqrt_mult_alt by apply Rle_0_sqr.
  fold (Rsqr (1 - alpha)). rewrite sqrt_Rsqr_abs. reflexivity.
Qed.

Lemma update_target
    (p : Particle) (dt : R) (isTreeMode : bool) (time : R) (ms : MaterialStore)
    (mode : bool) :
  target (fst (update p dt isTreeMode time ms)) mode = target p mode.
Proof.
  destruct (update_immutable p dt isTreeMode time ms) as (Ht & Hs & _).
  unfold target. destruct mode; assumption.
Qed.

(** X1. A call of [update] multiplies the distance to the target of the
    mode by [|1 - dt * speed|], for every delta-time: nothing clamps the
    step. *)
Theorem update_distance_factor
    (p : Particle) (dt : R) (isTreeMode : bool) (time : R) (ms : MaterialStore) :
  Vector3.distanceTo (position (mesh (fst (update p dt isTreeMode time ms))))
                     (target p isTreeMode)
  = Rabs (1 - dt * speed (type p) isTreeMode)
    * Vector3.distanceTo (position (mesh p)) (target p isTreeMode).
Proof. rewrite update_position. apply distanceTo_lerp_any. Qed.

(** X2. After a stall long enough for [dt * speed] to exceed 2, the
    call throws the particle past its target, farther from it than it
    was. *)
Theorem update_overshoots_after_stall
    (p : Particle) (dt : R) (isTreeMode : bool) (time : R) (ms : MaterialStore) :
  2 < dt * speed (type p) isTreeMode ->
  position (mesh p) <> target p isTreeMode ->
  Vector3.distanceTo (position (mesh p)) (target p isTreeMode)
  < Vector3.distanceTo (position (mesh (fst (update p dt isTreeMode time ms))))
                       (target p isTreeMode).
Proof.
  intros Hbig Hne. rewrite update_position, distanceTo_lerp_any.
  pose proof (LerpFacts.distanceTo_pos _ _ Hne) as Hpos.
  rewrite Rabs_left by lra. nra.
Qed.

Example update_overshoots_after_stall_witness :
  let p := mkParticle (newMesh matLeafMid) (Vector3.mk 1 0 0) (Vector3.mk 40 0 0)
                      1 Vector3.zero 0 leaf (materialColor matLeafMid) in
  Vector3.distanceTo (position (mesh p)) (target p true)
  < Vector3.distanceTo (position (mesh (fst (update p 1 true 0 initialMaterials))))
                       (target p true).
Proof.
  intros p. apply (update_overshoots_after_stall p 1 true 0 initialMaterials).
  - unfold speed; cbn; lra.
  - cbn. intros H. inversion H. lra.
Defined.

(** ** Frames of one delta-time and one mode *)

Lemma runFrames_constant_cons (dt : R) (mode : bool) (t : R) (times : list R)
    (p : Particle) (ms : MaterialStore) :
  runFrames (constantFrames dt mode (t :: times)) p ms
  = runFrames (constantFrames dt mode times)
              (fst (update p dt mode t ms)) (snd (update p dt mode t ms)).
Proof. cbn. destruct (update p dt mode t ms). reflexivity. Qed.

Lemma runFrames_type (fs : list Frame) (p : Particle) (ms : MaterialStore) :
  type (fst (runFrames fs p ms)) = type p.
Proof. apply (runFrames_immutable fs p ms). Qed.

Lemma runFrames_target (fs : list Frame) (p : Particle) (ms : MaterialStore)
    (mode : bool) :
  target (fst (runFrames fs p ms)) mode = target p mode.
Proof.
  destruct (runFrames_immutable fs p ms) as (Ht & Hs & _).
  unfold target. destruct mode; assumption.
Qed.

Lemma runFrames_constant_distance (dt : R) (mode : bool) (times : list R)
    (p : Particle) (ms : MaterialStore) :
  Vector3.distanceTo
    (position (mesh (fst (runFrames (constantFrames dt mode times) p ms))))
    (target p mode)
  = Rabs (1 - dt * speed (type p) mode) ^ length times
    * Vector3.distanceTo (position (mesh p)) (target p mode).
Proof.
  revert p ms. induction times as [| t times IH]; intros p ms.
  - cbn. ring.
  - rewrite runFrames_constant_cons.
    pose proof (IH (fst (update p dt mode t ms)) (snd (update p dt mode t ms)))
      as H.
    rewrite update_target in H.
    destruct (update_immutable p dt mode t ms) as (_ & _ & _ & _ & _ & Hty).
    rewrite Hty in H. rewrite H, update_distance_factor.
    cbn [length pow]. ring.
Qed.

(** X3. Under frames of one delta-time and one mode the distance to
    the target after [n] calls of [update] is [|1 - dt * speed| ^ n]
    times the distance at the start: the steps compound geometrically. *)
Theorem constant_frames_distance
    (p : Particle) (dt : R) (mode : bool) (times : list R) (ms : MaterialStore) :
  Vector3.distanceTo
    (position (mesh (fst (runFrames (constantFrames dt mode times) p ms))))
    (if mode then posTree p else posScatter p)
  = Rabs (1 - dt * speed (type p) mode) ^ length times
    * Vector3.distanceTo (position (mesh p))
                         (if mode then posTree p else posScatter p).
Proof.
  pose proof (runFrames_constant_distance dt mode times p ms) as H.
  unfold target in H. destruct mode; exact H.
Qed.

(** ** Rotation *)

Lemma update_rotation
    (p : Particle) (dt : R) (isTreeMode : bool) (time : R) (ms : MaterialStore) :
  let r := rotation (mesh p) in
  let r' := rotation (mesh (fst (update p dt isTreeMode time ms))) in
  Vector3.x r' = Vector3.x r + Vector3.x (rotationSpeed p)
  /\ Vector3.y r'
     = Vector3.y r + (Vector3.y (rotationSpeed p)
                      + if ParticleType_eqb (type p) snow then 0.01 else 0)
  /\ Vector3.z r'
     = Vector3.z r + (Vector3.z (rotationSpeed p)
                      + if ParticleType_eqb (type p) snow then 0.005 else 0).
Proof.
  unfold update. destruct (type p); cbn; repeat split; ring.
Qed.

(** X4. The rotation angles are never wrapped: after [n] calls of
    [update], with any arguments, each angle has grown by [n] times the
    rotation speed of its axis, plus [n * 0.01] on [y] and [n * 0.005]
    on [z] for a snow particle. *)
Theorem rotation_accumulates
    (frames : list Frame) (p : Particle) (ms : MaterialStore) :
  let n := INR (length frames) in
  let r := rotation (mesh p) in
  let r' := rotation (mesh (fst (runFrames frames p ms))) in
  Vector3.x r' = Vector3.x r + n * Vector3.x (rotationSpeed p)
  /\ Vector3.y r'
     = Vector3.y r + n * (Vector3.y (rotationSpeed p)
                          + if ParticleType_eqb (type p) snow then 0.01 else 0)
  /\ Vector3.z r'
     = Vector3.z r + n * (Vector3.z (rotationSpeed p)
                          + if ParticleType_eqb (type p) snow then 0.005 else 0).
Proof.
  revert p ms. induction frames as [| [[dt b] tm] frames IH]; intros p ms.
  - cbn. repeat split; ring.
  - cbn [runFrames length]. rewrite S_INR.
    pose proof (update_rotation p dt b tm ms) as (Hx & Hy & Hz).
    pose proof (update_immutable p dt b tm ms) as (_ & _ & _ & Hrs & _ & Hty).
    destruct (update p dt b tm ms) as [p' ms']. cbn [fst] in *.
    destruct (IH p' ms') as (Ix & Iy & Iz).
    cbv zeta. rewrite Ix, Iy, Iz, Hx, Hy, Hz, Hrs, Hty.
    repeat split; ring.
Qed.

(** * Properties of the frame loop *)

(** X5. [animate] sets the turn of the group to a tenth of the elapsed
    time and its sway to at most 0.015 rad in assembled mode and 0.1 rad
    in dispersed mode; it never writes the [x] angle. *)
Theorem animate_group_rotation (dt time : R) (isTree : bool) (st : Stage) :
  let rot := groupRotation (animate dt time isTree st) in
  Vector3.x rot = Vector3.x (groupRotation st)
  /\ Vector3.y rot = time * 0.1
  /\ Rabs (Vector3.z rot) <= (if isTree then 0.015 else 0.1).
Proof.
  unfold animate.
  destruct (updateAll (stageParticles st) dt isTree time (stageMaterials st)).
  destruct isTree; cbn; (split; [reflexivity | split; [reflexivity |]]).
  - pose proof (SIN_bound (time * 0.5)). apply Rabs_le. lra.
  - pose proof (SIN_bound (time * 0.2)). apply Rabs_le. lra.
Qed.

Lemma update_fst_any_store
    (p : Particle) (dt : R) (b : bool) (time : R) (ms ns : MaterialStore) :
  fst (update p dt b time ms) = fst (update p dt b time ns).
Proof.
  unfold update.
  destruct (ParticleType_eqb (type p) light); [reflexivity |].
  destruct (ParticleType_eqb (type p) star); [reflexivity |].
  destruct (ParticleType_eqb (type p) snow); reflexivity.
Qed.

Lemma runFrames_fst_any_store
    (frames : list Frame) (p : Particle) (ms ns : MaterialStore) :
  fst (runFrames frames p ms) = fst (runFrames frames p ns).
Proof.
  revert p ms ns. induction frames as [| [[dt b] tm] frames IH]; intros p ms ns.
  - reflexivity.
  - cbn. pose proof (update_fst_any_store p dt b tm ms ns) as H.
    destruct (update p dt b tm ms) as [p1 ms1].
    destruct (update p dt b tm ns) as [p2 ms2]. cbn in H. subst p2.
    apply IH.
Qed.

Lemma updateAll_fst (ps : list Particle) (dt : R) (b : bool) (time : R)
    (ms ns : MaterialStore) :
  fst (updateAll ps dt b time ms)
  = map (fun p => fst (update p dt b time ns)) ps.
Proof.
  revert ms. induction ps as [| p ps IH]; intros ms; cbn.
  - reflexivity.
  - pose proof (update_fst_any_store p dt b time ms ns) as H.
    destruct (update p dt b time ms) as [p' ms']. cbn in H.
    specialize (IH ms').
    destruct (updateAll ps dt b time ms') as [ps' ms'']. cbn in *.
    rewrite H, IH. reflexivity.
Qed.

Lemma runAnimation_particles
    (frames : list Frame) (st : Stage) (ms : MaterialStore) :
  stageParticles (runAnimation frames st)
  = map (fun p => fst (runFrames frames p ms)) (stageParticles st).
Proof.
  revert st. induction frames as [| [[dt b] tm] frames IH]; intros st.
  - cbn. rewrite map_id. reflexivity.
  - cbn [runAnimation]. rewrite IH. unfold animate.
    pose proof (updateAll_fst (stageParticles st) dt b tm (stageMaterials st) ms)
      as H.
    destruct (updateAll (stageParticles st) dt b tm (stageMaterials st))
      as [ps' ms']. cbn in *. rewrite H, map_map.
    apply map_ext. intros p. cbn [runFrames].
    destruct (update p dt b tm ms) as [p1 ms1]. cbn [fst].
    apply runFrames_fst_any_store.
Qed.

(** X6. The particles do not act on one another: after any frames, the
    particle at each place of the array is what the calls of [update]
    alone make of the particle that was at this place, whatever the
    other particles, their order and the materials are.  The array keeps
    its length. *)
Theorem animation_particles_independent
    (frames : list Frame) (st : Stage) (ms : MaterialStore) :
  stageParticles (runAnimation frames st)
  = map (fun p => fst (runFrames frames p ms)) (stageParticles st)
  /\ length (stageParticles (runAnimation frames st))
     = length (stageParticles st).
Proof.
  rewrite (runAnimation_particles frames st ms), length_map. auto.
Qed.

(** ** Shared materials *)

Lemma updateAll_app (a b : list Particle) (dt : R) (mode : bool) (time : R)
    (ms : MaterialStore) :
  updateAll (a ++ b) dt mode time ms
  = (fst (updateAll a dt mode time ms)
       ++ fst (updateAll b dt mode time (snd (updateAll a dt mode time ms))),
     snd (updateAll b dt mode time (snd (updateAll a dt mode time ms)))).
Proof.
  revert ms. induction a as [| p a IH]; intros ms; cbn.
  - destruct (updateAll b dt mode time ms). reflexivity.
  - destruct (update p dt mode time ms) as [p' ms']. rewrite IH.
    destruct (updateAll a dt mode time ms') as [a' ms''']. cbn.
    reflexivity.
Qed.

(** The value a light or the star writes to its material. *)
Lemma update_writes
    (p : Particle) (dt : R) (mode : bool) (time : R) (ms : MaterialStore) :
  writesMaterial p = true ->
  snd (update p dt mode time ms) (material (mesh p))
  = Some (if ParticleType_eqb (type p) light
          then 0.5 + blink p time * 1.5
          else 1.0 + sin (time * 4) * 0.5).
Proof.
  unfold writesMaterial, update. intros Hw.
  destruct (type p); try discriminate; cbn; apply setEmissiveIntensity_same.
Qed.

(** A call leaves every material but the one of the mesh as it was,
    and this one too when the particle is no light and no star. *)
Lemma update_store_frame
    (p : Particle) (dt : R) (mode : bool) (time : R) (ms : MaterialStore)
    (m : MaterialId) :
  (writesMaterial p = true -> material (mesh p) <> m) ->
  snd (update p dt mode time ms) m = ms m.
Proof.
  unfold writesMaterial, update, setEmissiveIntensity. intros Hw.
  destruct (type p); cbn in *; try reflexivity;
    (destruct (MaterialId_eq_dec m (material (mesh p))) as [E | _];
     [exfalso; apply Hw; auto | reflexivity]).
Qed.

Lemma updateAll_store_frame
    (ps : list Particle) (dt : R) (mode : bool) (time : R) (ms : MaterialStore)
    (m : MaterialId) :
  (forall q, In q ps -> writesMaterial q = true -> material (mesh q) <> m) ->
  snd (updateAll ps dt mode time ms) m = ms m.
Proof.
  revert ms. induction ps as [| p ps IH]; intros ms Hq; cbn.
  - reflexivity.
  - pose proof (update_store_frame p dt mode time ms m
                  (Hq p (or_introl eq_refl))) as Hp.
    destruct (update p dt mode time ms) as [p' ms']. cbn in Hp.
    specialize (IH ms' (fun q Hin => Hq q (or_intror Hin))).
    destruct (updateAll ps dt mode time ms') as [ps' ms'']. cbn in *.
    congruence.
Qed.

(** X7. A material is shared by its meshes, and the last writer wins:
    after a frame, the emissive intensity of a material is the value
    written by the last light or star of the array that uses it, for
    every particle of that material, also for the lights before it that
    wrote their own value in the same frame. *)
Theorem shared_material_last_writer
    (before after : list Particle) (p : Particle)
    (dt : R) (mode : bool) (time : R) (ms : MaterialStore) :
  writesMaterial p = true ->
  (forall q, In q after -> writesMaterial q = true ->
             material (mesh q) <> material (mesh p)) ->
  forall r, In r (before ++ p :: after) ->
    material (mesh r) = material (mesh p) ->
    snd (updateAll (before ++ p :: after) dt mode time ms) (material (mesh r))
    = Some (if ParticleType_eqb (type p) light
            then 0.5 + blink p time * 1.5
            else 1.0 + sin (time * 4) * 0.5).
Proof.
  intros Hw Hafter r _ Hr. rewrite Hr.
  rewrite updateAll_app. cbn [snd].
  set (ms1 := snd (updateAll before dt mode time ms)).
  cbn [updateAll].
  pose proof (update_writes p dt mode time ms1 Hw) as Hp.
  destruct (update p dt mode time ms1) as [p' ms2]. cbn [snd] in Hp.
  pose proof (updateAll_store_frame after dt mode time ms2 (material (mesh p))
                Hafter) as Hfr.
  destruct (updateAll after dt mode time ms2) as [a' ms3]. cbn [snd] in *.
  congruence.
Qed.

Example shared_material_last_writer_witness :
  let l1 := mkParticle (newMesh matLightWarm) Vector3.zero (Vector3.mk 40 0 0)
                       0.25 Vector3.zero 0 light (materialColor matLightWarm) in
  let l2 := mkParticle (newMesh matLightWarm) Vector3.zero (Vector3.mk 0 40 0)
                       0.25 Vector3.zero 1 light (materialColor matLightWarm) in
  snd (updateAll ([l1] ++ l2 :: []) 0.016 true 2 initialMaterials)
      (material (mesh l1))
  = Some (0.5 + blink l2 2 * 1.5).
Proof.
  intros l1 l2.
  apply (shared_material_last_writer [l1] [] l2 0.016 true 2 initialMaterials).
  - reflexivity.
  - intros q [].
  - cbn. left. reflexivity.
  - reflexivity.
Defined.

(** * The layout of the generated scene *)

Lemma horizontalRadius_polar (r theta y : R) :
  0 <= r ->
  horizontalRadius (Vector3.mk (r * cos theta) y (r * sin theta)) = r.
Proof.
  intros Hr. unfold horizontalRadius. cbn.
  pose proof (sin2_cos2 theta) as H. unfold Rsqr in H.
  replace (r * cos theta * (r * cos theta) + r * sin theta * (r * sin theta))
    with (r * r * (sin theta * sin theta + cos theta * cos theta)) by ring.
  rewrite H, Rmult_1_r. apply sqrt_square. exact Hr.
Qed.

Lemma Math_pow_unit (u : R) : 0 <= u < 1 -> 0 <= Math_pow u 0.8 <= 1.
Proof.
  intros [H0 H1]. unfold Math_pow.
  destruct (Req_dec_T u 0) as [E | Hne]; [lra |].
  unfold Rpower. split; [left; apply exp_pos |].
  assert (Hu : 0 < u) by lra.
  pose proof (ln_increasing u 1 Hu H1) as Hln. rewrite ln_1 in Hln.
  rewrite <- exp_0. left. apply exp_increasing. lra.
Qed.

Lemma pick_in (palette : list MaterialId) (i : Z) (dflt : MaterialId) :
  In dflt palette -> In (pick palette i dflt) palette.
Proof.
  intros Hd. unfold pick.
  destruct (nth_in_or_default (Z.to_nat i) palette dflt) as [H | ->]; assumption.
Qed.

Lemma index_fraction (i n : nat) :
  (i < n)%nat -> 0 <= INR i / INR n < 1.
Proof.
  intros Hi.
  assert (Hn : 0 < INR n) by (apply lt_0_INR; lia).
  pose proof (pos_INR i) as H0. pose proof (lt_INR i n Hi) as H1.
  split.
  - apply Rmult_le_pos; [exact H0 | left; apply Rinv_0_lt_compat; exact Hn].
  - apply (Rmult_lt_reg_r (INR n)); [exact Hn |].
    unfold Rdiv. rewrite Rmult_assoc, Rinv_l, Rmult_1_r by lra. lra.
Qed.

Lemma coneRadius_at (t : R) :
  coneRadius (Y_OFFSET + t * TREE_HEIGHT) = TREE_WIDTH_BASE * (1 - t).
Proof. unfold coneRadius, TREE_HEIGHT. field. Qed.

Lemma foliageRadius_bounds (maxR rNorm h : R) :
  0 <= maxR -> 0 <= rNorm <= 1 ->
  0 <= foliageRadius maxR rNorm h <= 1.2 * maxR.
Proof.
  intros Hm Hr. unfold foliageRadius.
  pose proof (SIN_bound (h * 2.5)) as Hs.
  assert (Hq : 0 <= maxR * rNorm <= maxR) by (split; nra).
  set (q := maxR * rNorm) in *. clearbody q.
  destruct (Rgt_dec rNorm 0.6).
  - set (f := 1 + sin (h * 2.5) * 0.2 * 1).
    assert (Hf : 0.8 <= f <= 1.2) by (unfold f; lra).
    clearbody f. split; nra.
  - split; nra.
Qed.

(** ** Loops over the indices below a bound *)

Lemma appends_forEachIndex_in (body : nat -> M unit) (Q : Particle -> Prop)
    (lo hi : nat) (l : list nat) :
  (forall i, In i l -> appends (body i) Q lo hi) ->
  appends (forEachIndex l body) Q (lo * length l) (hi * length l).
Proof.
  induction l as [| i l IH]; intros Hbody s; cbn [forEachIndex].
  - exists []. rewrite app_nil_r. cbn. split; [reflexivity |].
    split; [constructor | lia].
  - rewrite bind_snd.
    destruct (Hbody i (or_introl eq_refl) s) as (a1 & Hp1 & HQ1 & Hlen1).
    destruct (IH (fun j Hj => Hbody j (or_intror Hj)) (snd (body i s)))
      as (a2 & Hp2 & HQ2 & Hlen2).
    exists (a1 ++ a2). rewrite Hp2, Hp1, app_assoc.
    split; [reflexivity |]. split; [apply Forall_app; split; assumption |].
    rewrite length_app. cbn [length]. lia.
Qed.

Lemma appends_for_lt_below (body : nat -> M unit) (Q : Particle -> Prop)
    (lo hi n : nat) :
  (forall i, (i < n)%nat -> appends (body i) Q lo hi) ->
  appends (for_lt n body) Q (lo * n) (hi * n).
Proof.
  intros Hbody. unfold for_lt.
  pose proof (appends_forEachIndex_in body Q lo hi (seq 0 n)) as H.
  rewrite length_seq in H. apply H.
  intros i Hi. apply Hbody. apply in_seq in Hi. lia.
Qed.

Lemma appends_then (c d : M unit) (Q : Particle -> Prop) (lo hi lo' hi' : nat) :
  appends c Q lo hi -> appends d Q lo' hi' ->
  appends (c ;; d) Q (lo + lo') (hi + hi').
Proof.
  intros Hc Hd s. rewrite bind_snd.
  destruct (Hc s) as (a1 & Hp1 & HQ1 & Hlen1).
  destruct (Hd (snd (c s))) as (a2 & Hp2 & HQ2 & Hlen2).
  exists (a1 ++ a2). rewrite Hp2, Hp1, app_assoc.
  split; [reflexivity |]. split; [apply Forall_app; split; assumption |].
  rewrite length_app. lia.
Qed.

Section Layout.

Variable rnd : nat -> R.
Hypothesis rnd_range : forall n, 0 <= rnd n < 1.

(** The particle that [addParticle] pushes, field by field. *)
Lemma addParticle_detail (m : Mesh) (pos : Vec3) (ty : ParticleType)
    (custom : option Vec3) (s : SceneState) :
  exists p,
    particles (snd (addParticle rnd m pos ty custom s)) = particles s ++ [p]
    /\ type p = ty
    /\ posTree p = pos
    /\ mesh p = mkMesh pos (rotation m) (scale m) (material m)
    /\ initialScale p = Vector3.x (scale m)
    /\ baseColor p = materialColor (material m)
    /\ (exists k,
           rotationSpeed p
           = Vector3.mk ((rnd k - 0.5) * 0.02) ((rnd (S k) - 0.5) * 0.02)
                        ((rnd (S (S k)) - 0.5) * 0.02)
           /\ phase p = rnd (S (S (S k))) * PI * 2)
    /\ posScatter p = match custom with
                      | Some c => c
                      | None => scatterAt rnd (cursor s)
                      end.
Proof.
  destruct pos as [px py pz].
  destruct custom as [c |]; unfold addParticle, newParticle, randomScatter,
    bind, ret, push, Math_random; cbn;
    eexists; (split; [reflexivity |]); cbn;
    repeat (split; [reflexivity |]);
    (split; [eexists; split; reflexivity | reflexivity]).
Qed.

Lemma addParticle_laidOut (m : Mesh) (pos : Vec3) (ty : ParticleType)
    (custom : option Vec3) (s s0 : SceneState) (sc : R) :
  scale m = Vector3.mk sc sc sc ->
  match custom with
  | Some c => 35 <= Vector3.length c < 100
  | None => True
  end ->
  (forall p, posTree p = pos -> material (mesh p) = material m ->
             initialScale p = sc ->
             match custom with
             | Some c => posScatter p = c
             | None => True
             end ->
             placedAs ty p) ->
  particles s = particles s0 ->
  exists added,
    particles (snd (addParticle rnd m pos ty custom s)) = particles s0 ++ added
    /\ Forall laidOut added
    /\ (1 <= length added <= 1)%nat.
Proof.
  intros Hscale Hcustom Hplaced Hs.
  destruct (addParticle_detail m pos ty custom s)
    as (p & Hp & Hty & Htree & Hmesh & Hinit & Hbc & (k & Hrs & Hph) & Hsc).
  exists [p]. rewrite Hp, Hs. split; [reflexivity |].
  split; [| cbn; lia]. constructor; [| constructor].
  assert (Hmat : material (mesh p) = material m) by (rewrite Hmesh; reflexivity).
  assert (Hi : initialScale p = sc) by (rewrite Hinit, Hscale; reflexivity).
  split.
  - unfold wellFormed. rewrite Hmesh, Htree, Hi, Hbc, Hrs, Hph, Hscale. cbn.
    pose proof (rnd_range k). pose proof (rnd_range (S k)).
    pose proof (rnd_range (S (S k))). pose proof (rnd_range (S (S (S k)))).
    pose proof PI_RGT_0.
    repeat (split; [first [reflexivity | lra | nra] |]).
    destruct custom as [c |]; rewrite Hsc.
    + exact Hcustom.
    + pose proof (rnd_range (cursor s)).
      rewrite scatterAt_length by lra. lra.
  - rewrite Hty. apply Hplaced; try assumption.
    destruct custom; [exact Hsc | exact I].
Qed.

Ltac to_addParticle :=
  repeat (rewrite bind_snd; cbv beta zeta);
  unfold Math_random; cbn [fst snd cursor particles].

Ltac pose_draws :=
  repeat match goal with
         | |- context [rnd ?k] =>
             lazymatch goal with
             | _ : 0 <= rnd k < 1 |- _ => fail
             | _ => pose proof (rnd_range k)
             end
         end.

Lemma trunkBody_laidOut (i : nat) : appends (trunkBody rnd i) laidOut 1 1.
Proof.
  intros s. unfold trunkBody. to_addParticle.
  eapply addParticle_laidOut with (sc := 0.3);
    [reflexivity | exact I | | reflexivity].
  intros p Htree Hmat Hinit _. unfold placedAs.
  rewrite Htree, Hmat, Hinit. cbn. pose_draws.
  rewrite horizontalRadius_polar by lra.
  unfold Y_OFFSET, TRUNK_HEIGHT. repeat split; lra.
Qed.

Ltac project :=
  cbn [posTree mesh material scale initialScale posScatter
       Vector3.x Vector3.y Vector3.z
       newMesh withScale withRotation withPosition
       Vector3.setScalar Vector3.set].

Lemma foliageBody_laidOut (i : nat) :
  (i < FOLIAGE_COUNT)%nat -> appends (foliageBody rnd i) laidOut 1 1.
Proof.
  intros Hi s. unfold foliageBody.
  pose proof (index_fraction i FOLIAGE_COUNT Hi) as Ht.
  set (t := INR i / INR FOLIAGE_COUNT) in *. clearbody t.
  to_addParticle.
  eapply addParticle_laidOut;
    [reflexivity | exact I | | reflexivity].
  intros p Htree Hmat Hinit _. unfold placedAs.
  rewrite Htree, Hmat, Hinit. project. pose_draws.
  pose proof (Math_pow_unit _ (rnd_range (cursor s))) as Hpow.
  set (rNorm := Math_pow (rnd (cursor s)) 0.8) in *. clearbody rNorm.
  assert (HmaxR : 0 <= TREE_WIDTH_BASE * (1 - t))
    by (unfold TREE_WIDTH_BASE; lra).
  pose proof (foliageRadius_bounds _ rNorm (t * TREE_HEIGHT) HmaxR Hpow) as Hr.
  rewrite horizontalRadius_polar by lra.
  rewrite coneRadius_at.
  split; [apply pick_in; cbn; auto |].
  unfold Y_OFFSET, TREE_HEIGHT in *. repeat split; try lra; nra.
Qed.

Lemma ornamentBody_laidOut (i : nat) : appends (ornamentBody rnd i) laidOut 0 1.
Proof.
  intros s. unfold ornamentBody. rewrite bind_snd. cbv beta zeta.
  change (fst (Math_random rnd s)) with (rnd (cursor s)).
  pose proof (rnd_range (cursor s)) as Ht.
  set (t := rnd (cursor s)) in *. clearbody t.
  destruct (Rgt_dec t 0.98) as [Hgt | Hle].
  - exists []. cbn. rewrite app_nil_r.
    split; [reflexivity | split; [constructor | lia]].
  - to_addParticle.
    destruct (addParticle_laidOut
                (withScale
                   (newMesh
                      (pick ornamentMaterials
                         (Math_floor
                            (rnd (S (S (S (cursor s))))
                             * INR (length ornamentMaterials)))
                         matGold))
                   (Vector3.setScalar
                      (scale
                         (newMesh
                            (pick ornamentMaterials
                               (Math_floor
                                  (rnd (S (S (S (cursor s))))
                                   * INR (length ornamentMaterials)))
                               matGold)))
                      (if Rgt_dec (rnd (S (S (S (S (cursor s)))))) 0.7
                       then 0.6 + rnd (S (S (S (S (S (cursor s)))))) * 0.3
                       else 0.3 + rnd (S (S (S (S (S (cursor s)))))) * 0.2)))
                (Vector3.mk
                   (TREE_WIDTH_BASE * (1 - t) * (0.8 + rnd (S (cursor s)) * 0.3)
                    * cos (rnd (S (S (cursor s))) * PI * 2))
                   (Y_OFFSET + t * TREE_HEIGHT)
                   (TREE_WIDTH_BASE * (1 - t) * (0.8 + rnd (S (cursor s)) * 0.3)
                    * sin (rnd (S (S (cursor s))) * PI * 2)))
                ornament None
                {| cursor := S (S (S (S (S (S (cursor s))))));
                   particles := particles s |}
                s
                (if Rgt_dec (rnd (S (S (S (S (cursor s)))))) 0.7
                 then 0.6 + rnd (S (S (S (S (S (cursor s)))))) * 0.3
                 else 0.3 + rnd (S (S (S (S (S (cursor s)))))) * 0.2))
      as (added & Hp & HQ & Hlen);
      [reflexivity | exact I | | reflexivity |
       exists added; split; [exact Hp | split; [exact HQ | lia]]].
    intros p Htree Hmat Hinit _. unfold placedAs.
    rewrite Htree, Hmat, Hinit. project. pose_draws.
    assert (HmaxR : 0 < TREE_WIDTH_BASE * (1 - t))
      by (unfold TREE_WIDTH_BASE; lra).
    rewrite horizontalRadius_polar by nra.
    rewrite coneRadius_at.
    split; [apply pick_in; cbn; auto |].
    split; [destruct (Rgt_dec _ 0.7); lra |].
    unfold Y_OFFSET, TREE_HEIGHT in *. repeat split; try lra; nra.
Qed.

Lemma lightBody_laidOut (i : nat) :
  (i < LIGHT_COUNT)%nat -> appends (lightBody rnd i) laidOut 1 1.
Proof.
  intros Hi s. unfold lightBody.
  pose proof (index_fraction i LIGHT_COUNT Hi) as Ht.
  set (t := INR i / INR LIGHT_COUNT) in *. clearbody t.
  to_addParticle.
  eapply addParticle_laidOut with (sc := 0.25);
    [reflexivity | exact I | | reflexivity].
  intros p Htree Hmat Hinit _. unfold placedAs.
  rewrite Htree, Hmat, Hinit. project. pose_draws.
  assert (HmaxR : 0 <= TREE_WIDTH_BASE * (1 - t))
    by (unfold TREE_WIDTH_BASE; lra).
  rewrite horizontalRadius_polar by nra.
  rewrite coneRadius_at.
  split; [destruct (Rgt_dec _ 0.8); auto |].
  unfold Y_OFFSET, TREE_HEIGHT in *. repeat split; try lra; nra.
Qed.

Lemma starStep_laidOut : appends (starStep rnd) laidOut 1 1.
Proof.
  intros s. unfold starStep. to_addParticle.
  eapply addParticle_laidOut with (sc := 2.5);
    [reflexivity | exact I | | reflexivity].
  intros p Htree Hmat Hinit _. unfold placedAs.
  rewrite Htree, Hmat, Hinit. project. auto.
Qed.

Lemma snowBody_laidOut (i : nat) : appends (snowBody rnd i) laidOut 1 1.
Proof.
  intros s. unfold snowBody. to_addParticle. pose_draws.
  assert (Hlen : Vector3.length
            (Vector3.mk
               ((80 + rnd (S (S (S (cursor s)))) * 20)
                * sin (rnd (S (S (S (S (S (cursor s)))))) * PI)
                * cos (rnd (S (S (S (S (cursor s))))) * PI * 2))
               ((80 + rnd (S (S (S (cursor s)))) * 20)
                * sin (rnd (S (S (S (S (S (cursor s)))))) * PI)
                * sin (rnd (S (S (S (S (cursor s))))) * PI * 2))
               ((80 + rnd (S (S (S (cursor s)))) * 20)
                * cos (rnd (S (S (S (S (S (cursor s)))))) * PI)))
            = 80 + rnd (S (S (S (cursor s)))) * 20)
    by (apply spherical_length; lra).
  eapply addParticle_laidOut with (sc := 0.12);
    [reflexivity | cbv beta iota; rewrite Hlen; lra | | reflexivity].
  intros p Htree Hmat Hinit Hsc. unfold placedAs.
  rewrite Htree, Hmat, Hinit, Hsc, Hlen. project.
  repeat split; lra.
Qed.

(** Every particle of the generated scene is laid out as its part of
    the generation prescribes. *)
Lemma sceneParticles_laidOut : Forall laidOut (sceneParticles rnd).
Proof.
  unfold sceneParticles.
  assert (H : exists lo hi, appends (generateObjects rnd) laidOut lo hi).
  { unfold generateObjects. do 2 eexists.
    eapply appends_then;
      [apply appends_for_lt_below; intros i Hi; apply trunkBody_laidOut |].
    eapply appends_then;
      [apply appends_for_lt_below; intros i Hi;
       apply foliageBody_laidOut; exact Hi |].
    eapply appends_then;
      [apply appends_for_lt_below; intros i Hi; apply ornamentBody_laidOut |].
    eapply appends_then;
      [apply appends_for_lt_below; intros i Hi;
       apply lightBody_laidOut; exact Hi |].
    eapply appends_then; [apply starStep_laidOut |].
    apply appends_for_lt_below; intros i Hi; apply snowBody_laidOut. }
  destruct H as (lo & hi & H).
  destruct (H emptyScene) as (added & Hp & HQ & _).
  rewrite Hp. exact HQ.
Qed.

End Layout.

Lemma half_in_range : forall n : nat, 0 <= (fun _ : nat => 0.5) n < 1.
Proof. intros n. lra. Qed.

(** X8. The trunk particles fill a short cylinder at the foot of the
    tree: height in [[-21, -17]], within 1.8 of the axis up to
    rounding. *)
Theorem trunk_in_cylinder (rnd : nat -> R) :
  (forall n, 0 <= rnd n < 1) ->
  Forall (fun p => type p = trunk ->
                   -21 <= Vector3.y (posTree p) <= -17
                   /\ horizontalRadius (posTree p) <= 1.8 + 1e-9)
         (sceneParticles rnd).
Proof.
  intros Hrnd. eapply Forall_impl; [| apply (sceneParticles_laidOut rnd Hrnd)].
  intros p [_ Hpl] Hty. rewrite Hty in Hpl. cbn in Hpl.
  unfold Y_OFFSET, TRUNK_HEIGHT in Hpl. intuition lra.
Qed.

Example trunk_in_cylinder_witness :
  Forall (fun p => type p = trunk ->
                   -21 <= Vector3.y (posTree p) <= -17
                   /\ horizontalRadius (posTree p) <= 1.8 + 1e-9)
         (sceneParticles (fun _ => 0.5)).
Proof. apply (trunk_in_cylinder (fun _ => 0.5)). apply half_in_range. Defined.

(** X9. Every leaf lies between the foot and the apex of the tree and
    no farther from the axis than 1.2 times the radius of the cone at
    its height. *)
Theorem foliage_inside_cone (rnd : nat -> R) :
  (forall n, 0 <= rnd n < 1) ->
  Forall (fun p => type p = leaf ->
                   -18 <= Vector3.y (posTree p) < 12
                   /\ horizontalRadius (posTree p)
                      <= 1.2 * coneRadius (Vector3.y (posTree p)))
         (sceneParticles rnd).
Proof.
  intros Hrnd. eapply Forall_impl; [| apply (sceneParticles_laidOut rnd Hrnd)].
  intros p [_ Hpl] Hty. rewrite Hty in Hpl. cbn in Hpl.
  unfold Y_OFFSET, TREE_HEIGHT in Hpl. intuition lra.
Qed.

Example foliage_inside_cone_witness :
  Forall (fun p => type p = leaf ->
                   -18 <= Vector3.y (posTree p) < 12
                   /\ horizontalRadius (posTree p)
                      <= 1.2 * coneRadius (Vector3.y (posTree p)))
         (sceneParticles (fun _ => 0.5)).
Proof. apply (foliage_inside_cone (fun _ => 0.5)). apply half_in_range. Defined.

(** X10. Every ornament sits near the surface of the cone, between 0.8
    and 1.1 times its radius at the height of the ornament up to
    rounding (a relative [1e-9]), and none is in the top 2% of the
    height of the tree. *)
Theorem ornaments_near_surface (rnd : nat -> R) :
  (forall n, 0 <= rnd n < 1) ->
  Forall (fun p => type p = ornament ->
                   -18 <= Vector3.y (posTree p) <= -18 + 0.98 * 30
                   /\ (0.8 - 1e-9) * coneRadius (Vector3.y (posTree p))
                      <= horizontalRadius (posTree p)
                      <= (1.1 + 1e-9) * coneRadius (Vector3.y (posTree p)))
         (sceneParticles rnd).
Proof.
  intros Hrnd. eapply Forall_impl; [| apply (sceneParticles_laidOut rnd Hrnd)].
  intros p [_ Hpl] Hty. rewrite Hty in Hpl. cbn in Hpl.
  unfold Y_OFFSET, TREE_HEIGHT in Hpl.
  destruct Hpl as (_ & _ & Hy & Hr).
  assert (Hcone : 0 <= coneRadius (Vector3.y (posTree p)))
    by (unfold coneRadius, Y_OFFSET, TREE_HEIGHT, TREE_WIDTH_BASE; lra).
  split; [lra | split; nra].
Qed.

Example ornaments_near_surface_witness :
  Forall (fun p => type p = ornament ->
                   -18 <= Vector3.y (posTree p) <= -18 + 0.98 * 30
                   /\ (0.8 - 1e-9) * coneRadius (Vector3.y (posTree p))
                      <= horizontalRadius (posTree p)
                      <= (1.1 + 1e-9) * coneRadius (Vector3.y (posTree p)))
         (sceneParticles (fun _ => 0.5)).
Proof. apply (ornaments_near_surface (fun _ => 0.5)). apply half_in_range. Defined.

(** X11. Every light hangs just outside the cone: its distance from the
    axis is between 0.95 and 1.05 times the radius of the cone at its
    height plus 0.5, up to rounding (a relative [1e-9]). *)
Theorem lights_draped_on_cone (rnd : nat -> R) :
  (forall n, 0 <= rnd n < 1) ->
  Forall (fun p => type p = light ->
                   -18 <= Vector3.y (posTree p) < 12
                   /\ (0.95 - 1e-9) * (coneRadius (Vector3.y (posTree p)) + 0.5)
                      <= horizontalRadius (posTree p)
                      <= (1.05 + 1e-9) * (coneRadius (Vector3.y (posTree p)) + 0.5))
         (sceneParticles rnd).
Proof.
  intros Hrnd. eapply Forall_impl; [| apply (sceneParticles_laidOut rnd Hrnd)].
  intros p [_ Hpl] Hty. rewrite Hty in Hpl. cbn in Hpl.
  unfold Y_OFFSET, TREE_HEIGHT in Hpl.
  destruct Hpl as (_ & _ & Hy & Hr).
  assert (Hcone : 0 <= coneRadius (Vector3.y (posTree p)))
    by (unfold coneRadius, Y_OFFSET, TREE_HEIGHT, TREE_WIDTH_BASE; lra).
  split; [lra | split; nra].
Qed.

Example lights_draped_on_cone_witness :
  Forall (fun p => type p = light ->
                   -18 <= Vector3.y (posTree p) < 12
                   /\ (0.95 - 1e-9) * (coneRadius (Vector3.y (posTree p)) + 0.5)
                      <= horizontalRadius (posTree p)
                      <= (1.05 + 1e-9) * (coneRadius (Vector3.y (posTree p)) + 0.5))
         (sceneParticles (fun _ => 0.5)).
Proof. apply (lights_draped_on_cone (fun _ => 0.5)). apply half_in_range. Defined.

(** X12. The star is on the axis at height 13.5, above every trunk,
    leaf, ornament and light particle, all of which are below 12. *)
Theorem star_on_top (rnd : nat -> R) :
  (forall n, 0 <= rnd n < 1) ->
  Forall (fun p =>
            (type p = star -> posTree p = Vector3.mk 0 13.5 0)
            /\ (type p <> star -> type p <> snow ->
                Vector3.y (posTree p) < 12))
         (sceneParticles rnd).
Proof.
  intros Hrnd. eapply Forall_impl; [| apply (sceneParticles_laidOut rnd Hrnd)].
  intros p [_ Hpl]. unfold placedAs, Y_OFFSET, TREE_HEIGHT, TRUNK_HEIGHT in Hpl.
  split.
  - intros Hty. rewrite Hty in Hpl. destruct Hpl as (_ & _ & ->).
    f_equal; lra.
  - intros Hst Hsn. destruct (type p); try contradiction; intuition lra.
Qed.

Example star_on_top_witness :
  Forall (fun p =>
            (type p = star -> posTree p = Vector3.mk 0 13.5 0)
            /\ (type p <> star -> type p <> snow ->
                Vector3.y (posTree p) < 12))
         (sceneParticles (fun _ => 0.5)).
Proof. apply (star_on_top (fun _ => 0.5)). apply half_in_range. Defined.

(** X13. The snow fills a box of side 70 around the tree, lifted by 10:
    [x] and [z] in [[-35, 35)], [y] in [[-25, 45)]. *)
Theorem snow_field_box (rnd : nat -> R) :
  (forall n, 0 <= rnd n < 1) ->
  Forall (fun p => type p = snow ->
                   -35 <= Vector3.x (posTree p) < 35
                   /\ -25 <= Vector3.y (posTree p) < 45
                   /\ -35 <= Vector3.z (posTree p) < 35)
         (sceneParticles rnd).
Proof.
  intros Hrnd. eapply Forall_impl; [| apply (sceneParticles_laidOut rnd Hrnd)].
  intros p [_ Hpl] Hty. rewrite Hty in Hpl. cbn in Hpl. intuition lra.
Qed.

Example snow_field_box_witness :
  Forall (fun p => type p = snow ->
                   -35 <= Vector3.x (posTree p) < 35
                   /\ -25 <= Vector3.y (posTree p) < 45
                   /\ -35 <= Vector3.z (posTree p) < 35)
         (sceneParticles (fun _ => 0.5)).
Proof. apply (snow_field_box (fun _ => 0.5)). apply half_in_range. Defined.

(** X14. Sizes and materials by category: a trunk particle has scale
    0.3 and the trunk material, a light 0.25 and one of the two light
    materials, the star 2.5 and the star material, a snow particle 0.12
    and the snow material; a leaf has a scale in [[0.16, 0.6)] and a
    material of the leaf palette, an ornament a scale in [[0.3, 0.9)]
    and a material of the ornament palette. *)
Theorem sizes_and_materials (rnd : nat -> R) :
  (forall n, 0 <= rnd n < 1) ->
  Forall (fun p =>
            match type p with
            | trunk => initialScale p = 0.3 /\ material (mesh p) = matTrunk
            | leaf => 0.16 <= initialScale p < 0.6
                      /\ In (material (mesh p)) leafMaterials
            | ornament => 0.3 <= initialScale p < 0.9
                          /\ In (material (mesh p)) ornamentMaterials
            | light => initialScale p = 0.25
                       /\ (material (mesh p) = matLightWarm
                           \/ material (mesh p) = matLightColor)
            | star => initialScale p = 2.5 /\ material (mesh p) = matStar
            | snow => initialScale p = 0.12 /\ material (mesh p) = matSnow
            end)
         (sceneParticles rnd).
Proof.
  intros Hrnd. eapply Forall_impl; [| apply (sceneParticles_laidOut rnd Hrnd)].
  intros p [_ Hpl]. unfold placedAs in Hpl.
  destruct (type p); intuition.
Qed.

Example sizes_and_materials_witness :
  Forall (fun p =>
            match type p with
            | trunk => initialScale p = 0.3 /\ material (mesh p) = matTrunk
            | leaf => 0.16 <= initialScale p < 0.6
                      /\ In (material (mesh p)) leafMaterials
            | ornament => 0.3 <= initialScale p < 0.9
                          /\ In (material (mesh p)) ornamentMaterials
            | light => initialScale p = 0.25
                       /\ (material (mesh p) = matLightWarm
                           \/ material (mesh p) = matLightColor)
            | star => initialScale p = 2.5 /\ material (mesh p) = matStar
            | snow => initialScale p = 0.12 /\ material (mesh p) = matSnow
            end)
         (sceneParticles (fun _ => 0.5)).
Proof. apply (sizes_and_materials (fun _ => 0.5)). apply half_in_range. Defined.

(** X15. What the constructor gives every particle of the scene: a
    rotation speed within [[-0.01, 0.01)] on each axis, a phase within
    [[0, 2 * PI)], the colour of its material as base colour, and as
    initial scale the scale of its mesh, the same on the three axes. *)
Theorem constructor_ranges (rnd : nat -> R) :
  (forall n, 0 <= rnd n < 1) ->
  Forall (fun p =>
            (-0.01 <= Vector3.x (rotationSpeed p) < 0.01
             /\ -0.01 <= Vector3.y (rotationSpeed p) < 0.01
             /\ -0.01 <= Vector3.z (rotationSpeed p) < 0.01)
            /\ 0 <= phase p < 2 * PI
            /\ baseColor p = materialColor (material (mesh p))
            /\ scale (mesh p)
               = Vector3.mk (initialScale p) (initialScale p) (initialScale p))
         (sceneParticles rnd).
Proof.
  intros Hrnd. eapply Forall_impl; [| apply (sceneParticles_laidOut rnd Hrnd)].
  intros p [Hwf _]. unfold wellFormed in Hwf. intuition.
Qed.

Example constructor_ranges_witness :
  Forall (fun p =>
            (-0.01 <= Vector3.x (rotationSpeed p) < 0.01
             /\ -0.01 <= Vector3.y (rotationSpeed p) < 0.01
             /\ -0.01 <= Vector3.z (rotationSpeed p) < 0.01)
            /\ 0 <= phase p < 2 * PI
            /\ baseColor p = materialColor (material (mesh p))
            /\ scale (mesh p)
               = Vector3.mk (initialScale p) (initialScale p) (initialScale p))
         (sceneParticles (fun _ => 0.5)).
Proof. apply (constructor_ranges (fun _ => 0.5)). apply half_in_range. Defined.

(** * The animation of the generated scene *)

Lemma stageParticles_mkStage (r : Vec3) (ps : list Particle) (ms : MaterialStore) :
  stageParticles (mkStage r ps ms) = ps.
Proof. reflexivity. Qed.

Lemma initialStage_particles (rnd : nat -> R) :
  stageParticles (initialStage rnd) = sceneParticles rnd.
Proof. unfold initialStage. apply stageParticles_mkStage. Qed.

Lemma animate_fields (dt time : R) (b : bool) (st : Stage) :
  stageParticles (animate dt time b st)
  = fst (updateAll (stageParticles st) dt b time (stageMaterials st))
  /\ stageMaterials (animate dt time b st)
     = snd (updateAll (stageParticles st) dt b time (stageMaterials st)).
Proof.
  unfold animate.
  destruct (updateAll (stageParticles st) dt b time (stageMaterials st)).
  split; reflexivity.
Qed.

Lemma update_writesMaterial
    (p : Particle) (dt : R) (b : bool) (time : R) (ms : MaterialStore) :
  writesMaterial (fst (update p dt b time ms)) = writesMaterial p.
Proof.
  unfold writesMaterial.
  destruct (update_immutable p dt b time ms) as (_ & _ & _ & _ & _ & ->).
  reflexivity.
Qed.

(** A material that no light and no star of the stage uses keeps its
    emissive intensity through the animation. *)
Lemma runAnimation_store_frame
    (frames : list Frame) (st : Stage) (m : MaterialId) :
  (forall q, In q (stageParticles st) -> writesMaterial q = true ->
             material (mesh q) <> m) ->
  stageMaterials (runAnimation frames st) m = stageMaterials st m.
Proof.
  revert st. induction frames as [| [[dt b] tm] frames IH]; intros st Hq.
  - reflexivity.
  - cbn [runAnimation].
    destruct (animate_fields dt tm b st) as [Hps Hms].
    rewrite IH.
    + rewrite Hms. apply updateAll_store_frame. exact Hq.
    + intros q Hin Hw. rewrite Hps in Hin.
      rewrite (updateAll_fst _ dt b tm _ (stageMaterials st)) in Hin.
      apply in_map_iff in Hin. destruct Hin as (q0 & <- & Hin0).
      rewrite update_writesMaterial in Hw. rewrite update_material.
      exact (Hq q0 Hin0 Hw).
Qed.

(** X16. Only three materials are ever written by the animation of the
    generated scene: the two light materials and the star material.
    The emissive intensity of every other material (leaves, trunk,
    ornaments, snow) is after any frames what it was at construction. *)
Theorem decor_materials_never_written
    (rnd : nat -> R) (frames : list Frame) (m : MaterialId) :
  (forall n, 0 <= rnd n < 1) ->
  m <> matLightWarm -> m <> matLightColor -> m <> matStar ->
  stageMaterials (runAnimation frames (initialStage rnd)) m = initialMaterials m.
Proof.
  intros Hrnd Hw Hc Hs.
  rewrite runAnimation_store_frame; [reflexivity |].
  intros q Hin Hwr. rewrite initialStage_particles in Hin.
  pose proof (sceneParticles_laidOut rnd Hrnd) as Hall.
  rewrite Forall_forall in Hall. destruct (Hall q Hin) as [_ Hpl].
  clear Hall Hin.
  unfold writesMaterial in Hwr. unfold placedAs in Hpl.
  destruct (type q); try discriminate Hwr.
  - destruct Hpl as ([-> | ->] & _); intros <-; contradiction.
  - destruct Hpl as (-> & _). intros <-; contradiction.
Qed.

Example decor_materials_never_written_witness :
  stageMaterials
    (runAnimation [(0.016, true, 0.016); (0.016, false, 0.032)]
                  (initialStage (fun _ => 0.5)))
    matLeafBright
  = initialMaterials matLeafBright.
Proof.
  apply (decor_materials_never_written (fun _ => 0.5)).
  - apply half_in_range.
  - discriminate.
  - discriminate.
  - discriminate.
Defined.

(** ** The pulse of the lights and of the star *)

Lemma update_pulse_band
    (p : Particle) (dt : R) (b : bool) (time : R) (ms : MaterialStore) :
  writesMaterial p = true -> 0 <= initialScale p ->
  exists s,
    scale (mesh (fst (update p dt b time ms))) = Vector3.mk s s s
    /\ 0.8 * initialScale p <= s <= 1.2 * initialScale p.
Proof.
  unfold writesMaterial. intros Hw Hi.
  destruct (type p) eqn:Ety; try discriminate.
  - destruct (update_light p dt b time ms Ety) as [_ Hsc].
    eexists. split; [exact Hsc |].
    pose proof (blink_range p time). nra.
  - destruct (update_star p dt b time ms Ety) as [_ Hsc].
    eexists. split; [exact Hsc |].
    pose proof (SIN_bound (time * 2)). nra.
Qed.

Lemma runFrames_pulse_band
    (frames : list Frame) (p : Particle) (ms : MaterialStore) :
  writesMaterial p = true -> 0 <= initialScale p ->
  (exists s, scale (mesh p) = Vector3.mk s s s
             /\ 0.8 * initialScale p <= s <= 1.2 * initialScale p) ->
  exists s,
    scale (mesh (fst (runFrames frames p ms))) = Vector3.mk s s s
    /\ 0.8 * initialScale p <= s <= 1.2 * initialScale p.
Proof.
  revert p ms. induction frames as [| [[dt b] tm] frames IH];
    intros p ms Hw Hi Hsc.
  - exact Hsc.
  - cbn [runFrames].
    pose proof (update_pulse_band p dt b tm ms Hw Hi) as Hband.
    pose proof (update_writesMaterial p dt b tm ms) as Hw'.
    pose proof (update_immutable p dt b tm ms) as (_ & _ & Hinit & _).
    destruct (update p dt b tm ms) as [p' ms']. cbn [fst] in *.
    rewrite <- Hinit. apply IH; rewrite ?Hinit; congruence.
Qed.

(** X17. In the animation of the generated scene the scale of a light,
    the same on the three axes, stays within [[0.2, 0.3]] and the scale
    of the star within [[2, 3]], up to rounding ([1e-9]), at every
    frame. *)
Theorem pulsing_scales_in_band (rnd : nat -> R) (frames : list Frame) :
  (forall n, 0 <= rnd n < 1) ->
  Forall (fun p =>
            (type p = light ->
             exists s, scale (mesh p) = Vector3.mk s s s /\ 0.2 - 1e-9 <= s <= 0.3 + 1e-9)
            /\ (type p = star ->
                exists s, scale (mesh p) = Vector3.mk s s s /\ 2 - 1e-9 <= s <= 3 + 1e-9))
         (stageParticles (runAnimation frames (initialStage rnd))).
Proof.
  intros Hrnd.
  rewrite (runAnimation_particles frames _ initialMaterials).
  rewrite initialStage_particles.
  apply Forall_map.
  eapply Forall_impl; [| apply (sceneParticles_laidOut rnd Hrnd)].
  intros p [Hwf Hpl].
  destruct Hwf as (_ & Hsc & _).
  rewrite runFrames_type.
  assert (Hband : writesMaterial p = true -> 0 <= initialScale p ->
            exists s,
              scale (mesh (fst (runFrames frames p initialMaterials)))
              = Vector3.mk s s s
              /\ 0.8 * initialScale p <= s <= 1.2 * initialScale p).
  { intros Hw Hi. apply runFrames_pulse_band; try assumption.
    exists (initialScale p). split; [exact Hsc | lra]. }
  unfold placedAs in Hpl. unfold writesMaterial in Hband.
  split; intros Hty; rewrite Hty in *; cbn in Hband;
    destruct Hpl as (_ & Hi & _);
    (destruct Hband as (s & Hs & Hb); [reflexivity | lra |]);
    exists s; (split; [exact Hs | lra]).
Qed.

Example pulsing_scales_in_band_witness :
  Forall (fun p =>
            (type p = light ->
             exists s, scale (mesh p) = Vector3.mk s s s /\ 0.2 - 1e-9 <= s <= 0.3 + 1e-9)
            /\ (type p = star ->
                exists s, scale (mesh p) = Vector3.mk s s s /\ 2 - 1e-9 <= s <= 3 + 1e-9))
         (stageParticles
            (runAnimation [(0.016, true, 0.016)] (initialStage (fun _ => 0.5)))).
Proof.
  apply (pulsing_scales_in_band (fun _ => 0.5)). apply half_in_range.
Defined.

(** ** Settling after a change of mode *)

Lemma Rabs_le_between (a b : R) : Rabs a <= b -> - b <= a <= b.
Proof. unfold Rabs. destruct (Rcase_abs a); lra. Qed.

Lemma abs_coord_le_length (v : Vec3) :
  Rabs (Vector3.x v) <= Vector3.length v
  /\ Rabs (Vector3.y v) <= Vector3.length v
  /\ Rabs (Vector3.z v) <= Vector3.length v.
Proof.
  unfold Vector3.length.
  pose proof (Rle_0_sqr (Vector3.x v)) as Hx.
  pose proof (Rle_0_sqr (Vector3.y v)) as Hy.
  pose proof (Rle_0_sqr (Vector3.z v)) as Hz.
  rewrite <- (sqrt_Rsqr_abs (Vector3.x v)), <- (sqrt_Rsqr_abs (Vector3.y v)),
    <- (sqrt_Rsqr_abs (Vector3.z v)).
  unfold Rsqr in *.
  repeat split; apply sqrt_le_1_alt; lra.
Qed.

Lemma abs_coord_le_horizontalRadius (v : Vec3) :
  Rabs (Vector3.x v) <= horizontalRadius v
  /\ Rabs (Vector3.z v) <= horizontalRadius v.
Proof.
  unfold horizontalRadius.
  pose proof (Rle_0_sqr (Vector3.x v)) as Hx.
  pose proof (Rle_0_sqr (Vector3.z v)) as Hz.
  rewrite <- (sqrt_Rsqr_abs (Vector3.x v)), <- (sqrt_Rsqr_abs (Vector3.z v)).
  unfold Rsqr in *.
  split; apply sqrt_le_1_alt; lra.
Qed.

Lemma distanceTo_in_box (a b : Vec3) (X Y Z : R) :
  Rabs (Vector3.x a - Vector3.x b) <= X ->
  Rabs (Vector3.y a - Vector3.y b) <= Y ->
  Rabs (Vector3.z a - Vector3.z b) <= Z ->
  Vector3.distanceTo a b <= sqrt (X * X + Y * Y + Z * Z).
Proof.
  intros Hx Hy Hz. unfold Vector3.distanceTo, Vector3.distanceToSquared.
  cbv zeta. apply sqrt_le_1_alt.
  apply Rabs_le_between in Hx, Hy, Hz.
  assert (forall d D, - D <= d <= D -> d * d <= D * D) as Hsq
    by (intros d D Hd; nra).
  pose proof (Hsq _ _ Hx). pose proof (Hsq _ _ Hy). pose proof (Hsq _ _ Hz).
  lra.
Qed.

(** The tree positions of the scene are within 35 of the axis planes
    and 45 of the ground plane; the scatter positions within 100. *)
Lemma laidOut_extent (p : Particle) :
  laidOut p ->
  (Rabs (Vector3.x (posTree p)) <= 35
   /\ Rabs (Vector3.y (posTree p)) <= 45
   /\ Rabs (Vector3.z (posTree p)) <= 35)
  /\ (Rabs (Vector3.x (posScatter p)) <= 100
      /\ Rabs (Vector3.y (posScatter p)) <= 100
      /\ Rabs (Vector3.z (posScatter p)) <= 100).
Proof.
  intros [Hwf Hpl]. split.
  - pose proof (abs_coord_le_horizontalRadius (posTree p)) as [Hx Hz].
    unfold placedAs, Y_OFFSET, TREE_HEIGHT, TRUNK_HEIGHT in Hpl.
    assert (Hcone : -18 <= Vector3.y (posTree p) ->
                    coneRadius (Vector3.y (posTree p)) <= 14).
    { intros Hy. unfold coneRadius, Y_OFFSET, TREE_HEIGHT, TREE_WIDTH_BASE. lra. }
    destruct (type p).
    + destruct Hpl as (_ & _ & Hy & Hr). specialize (Hcone (proj1 Hy)).
      repeat split; try lra; apply Rabs_le; lra.
    + destruct Hpl as (_ & _ & Hy & Hr). specialize (Hcone (proj1 Hy)).
      repeat split; try lra; apply Rabs_le; lra.
    + destruct Hpl as (_ & _ & Hy & Hr). specialize (Hcone (proj1 Hy)).
      repeat split; try lra; apply Rabs_le; lra.
    + destruct Hpl as (_ & _ & ->). cbn.
      repeat split; apply Rabs_le; lra.
    + destruct Hpl as (_ & _ & (Hx' & Hy' & Hz') & _).
      repeat split; apply Rabs_le; lra.
    + destruct Hpl as (_ & _ & Hy & Hr).
      repeat split; try lra; apply Rabs_le; lra.
  - destruct Hwf as (_ & _ & _ & _ & _ & Hlen).
    pose proof (abs_coord_le_length (posScatter p)) as (Hx & Hy & Hz).
    repeat split; lra.
Qed.

Lemma decay_300 : (39 / 40) ^ 300 < 1 / 1000.
Proof.
  unfold Rdiv. rewrite Rpow_mult_distr, pow_inv.
  assert (H40 : 0 < 40 ^ 300) by (apply pow_lt; lra).
  apply (Rmult_lt_reg_r (40 ^ 300)); [exact H40 |].
  rewrite Rmult_assoc, Rinv_l, Rmult_1_r by lra.
  apply (Rmult_lt_reg_l 1000); [lra |].
  replace (1000 * (1 * / 1000 * 40 ^ 300)) with (40 ^ 300) by field.
  rewrite !pow_IZR, <- mult_IZR.
  apply IZR_lt. vm_compute. reflexivity.
Qed.

Lemma pow_decreasing (q : R) (m n : nat) :
  0 <= q <= 1 -> (m <= n)%nat -> q ^ n <= q ^ m.
Proof.
  intros Hq Hmn. replace n with (m + (n - m))%nat by lia.
  rewrite pow_add.
  assert (H0 : 0 <= q ^ m) by (apply pow_le; lra).
  assert (H1 : q ^ (n - m) <= 1).
  { rewrite <- (pow1 (n - m)). apply pow_incr. lra. }
  nra.
Qed.

(** X18. Five seconds after the scene is dispersed, at 60 frames per
    second, every particle of the generated scene is within 0.5 of its
    scatter target: 300 frames or more of delta-time 1/60 in dispersed
    mode, from the assembled start. *)
Theorem dispersal_settles (rnd : nat -> R) (times : list R) :
  (forall n, 0 <= rnd n < 1) ->
  (300 <= length times)%nat ->
  Forall (fun p =>
            Vector3.distanceTo (position (mesh p)) (posScatter p) < 0.5)
         (stageParticles
            (runAnimation (constantFrames (1 / 60) false times)
                          (initialStage rnd))).
Proof.
  intros Hrnd Hlen.
  rewrite (runAnimation_particles _ _ initialMaterials).
  rewrite initialStage_particles.
  apply Forall_map.
  eapply Forall_impl; [| apply (sceneParticles_laidOut rnd Hrnd)].
  intros p Hp.
  destruct (runFrames_immutable (constantFrames (1 / 60) false times) p
              initialMaterials) as (_ & -> & _).
  change (posScatter p) with (target p false).
  rewrite runFrames_constant_distance.
  assert (Hspeed : speed (type p) false = 1.5) by (destruct (type p); reflexivity).
  rewrite Hspeed.
  replace (1 - 1 / 60 * 1.5) with (39 / 40) by lra.
  rewrite Rabs_right by lra.
  pose proof (pow_decreasing (39 / 40) 300 (length times)
                ltac:(lra) Hlen) as Hdec.
  pose proof decay_300 as H300.
  assert (Hpow : 0 <= (39 / 40) ^ length times) by (apply pow_le; lra).
  assert (Hd : Vector3.distanceTo (position (mesh p)) (target p false) < 240).
  { destruct Hp as [Hwf Hpl].
    destruct (laidOut_extent p (conj Hwf Hpl))
      as ((Hx & Hy & Hz) & (Sx & Sy & Sz)).
    destruct Hwf as (-> & _). unfold target.
    apply Rabs_le_between in Hx, Hy, Hz, Sx, Sy, Sz.
    eapply Rle_lt_trans.
    - apply (distanceTo_in_box _ _ 135 145 135); apply Rabs_le; lra.
    - rewrite <- (sqrt_square 240) by lra. apply sqrt_lt_1_alt. lra. }
  pose proof (sqrt_pos (Vector3.distanceToSquared (position (mesh p))
                          (target p false))) as Hnn.
  fold (Vector3.distanceTo (position (mesh p)) (target p false)) in Hnn.
  nra.
Qed.

Example dispersal_settles_witness :
  Forall (fun p =>
            Vector3.distanceTo (position (mesh p)) (posScatter p) < 0.5)
         (stageParticles
            (runAnimation (constantFrames (1 / 60) false (repeat 0 300))
                          (initialStage (fun _ => 0.5)))).
Proof.
  apply (dispersal_settles (fun _ => 0.5) (repeat 0 300)).
  - apply half_in_range.
  - rewrite repeat_length. lia.
Defined.

(** * Properties of the App component *)

Module AppFacts.

Import App.

#[local] Arguments clearTimeout : simpl never.

Lemma timersFresh_initial : timersFresh initial.
Proof.
  unfold timersFresh, initial. cbn. repeat split; try lia; try contradiction.
  all: discriminate.
Qed.

Lemma in_clearTimeout (id k : nat) (l : list nat) :
  In k (clearTimeout id l) -> In k l.
Proof. unfold clearTimeout. intros H. apply in_remove in H. tauto. Qed.

Lemma timersFresh_step (st : State) (e : Event) :
  timersFresh st -> timersFresh (step st e).
Proof.
  intros (Hn & Hp & Hr).
  destruct e; unfold timersFresh; cbn [step].
  - (* DoubleClick *) cbn. auto.
  - (* TouchStart *)
    cbn. split; [lia |]. split.
    + intros k [<- | Hk]; [lia | apply Hp in Hk; lia].
    + intros k Hk. injection Hk as <-. lia.
  - (* TouchEnd *)
    unfold handleTouchEnd. destruct (timerRef st) as [id |] eqn:E;
      [destruct (Nat.eqb id 0) |]; cbn; rewrite ?E; auto.
    split; [exact Hn |]. split; [| discriminate].
    intros k Hk. apply in_clearTimeout in Hk. auto.
  - (* TimerFires *)
    unfold timerFires. destruct (in_dec Nat.eq_dec id (pendingTimers st));
      cbn; auto.
    split; [exact Hn |]. split; [| exact Hr].
    intros k Hk. apply in_clearTimeout in Hk. auto.
  - (* SceneClick *)
    unfold toggleMode. destruct (ignoreClickRef st); cbn; auto.
  - (* HideUIClick *) cbn. auto.
  - (* PhotoClick *) cbn. auto.
Qed.

Lemma timersFresh_run (events : list Event) (st : State) :
  timersFresh st -> timersFresh (run events st).
Proof.
  revert st. induction events as [| e events IH]; intros st H; cbn.
  - exact H.
  - apply IH, timersFresh_step, H.
Qed.

Lemma run_app (es fs : list Event) (st : State) :
  run (es ++ fs) st = run fs (run es st).
Proof. unfold run. apply fold_left_app. Qed.

Lemma clearTimeout_fresh (id : nat) (l : list nat) :
  ~ In id l -> clearTimeout id (id :: l) = l.
Proof.
  intros Hn. unfold clearTimeout. cbn.
  destruct (Nat.eq_dec id id) as [_ | Hne]; [| contradiction].
  apply notin_remove. exact Hn.
Qed.

Lemma fresh_not_pending (st : State) :
  timersFresh st -> ~ In (nextTimerId st) (pendingTimers st).
Proof. intros (_ & Hp & _) Hin. apply Hp in Hin. lia. Qed.

Lemma tap_from_fresh (st : State) :
  timersFresh st ->
  run [TouchStart; TouchEnd; SceneClick] st
  = mkState (negb (isTreeMode st)) (showUI st) (showPhoto st) None
            false false (pendingTimers st) (S (nextTimerId st)).
Proof.
  intros Hf. pose proof (fresh_not_pending st Hf) as Hnp.
  destruct Hf as (Hn & _).
  unfold run. cbn [fold_left step].
  unfold handleTouchStart, handleTouchEnd. cbn.
  destruct (Nat.eqb (nextTimerId st) 0) eqn:E;
    [apply Nat.eqb_eq in E; lia |].
  unfold toggleMode. cbn.
  rewrite clearTimeout_fresh by exact Hnp. reflexivity.
Qed.

Lemma long_press_from_fresh (st : State) :
  timersFresh st ->
  run [TouchStart; TimerFires (nextTimerId st); TouchEnd; SceneClick] st
  = mkState (isTreeMode st) (showUI st) true None
            true false (pendingTimers st) (S (nextTimerId st)).
Proof.
  intros Hf. pose proof (fresh_not_pending st Hf) as Hnp.
  destruct Hf as (Hn & _).
  unfold run. cbn [fold_left step].
  unfold handleTouchStart, timerFires. cbn [pendingTimers].
  destruct (in_dec Nat.eq_dec (nextTimerId st)
              (nextTimerId st :: pendingTimers st)) as [_ | Hno];
    [| exfalso; apply Hno; left; reflexivity].
  rewrite clearTimeout_fresh by exact Hnp.
  unfold longPressCallback, handleTouchEnd. cbn.
  destruct (Nat.eqb (nextTimerId st) 0) eqn:E;
    [apply Nat.eqb_eq in E; lia |].
  unfold toggleMode. cbn.
  unfold clearTimeout. rewrite notin_remove by exact Hnp. reflexivity.
Qed.

Lemma two_touches_from_fresh (st : State) :
  timersFresh st ->
  run [TouchStart; TouchStart; TouchEnd; TouchEnd] st
  = mkState (isTreeMode st) (showUI st) (showPhoto st) None
            false false (nextTimerId st :: pendingTimers st)
            (S (S (nextTimerId st))).
Proof.
  intros Hf. pose proof (fresh_not_pending st Hf) as Hnp.
  destruct Hf as (Hn & Hp & _).
  unfold run. cbn [fold_left step].
  unfold handleTouchStart, handleTouchEnd. cbn.
  rewrite clearTimeout_fresh; [reflexivity |].
  intros [E | Hin]; [lia | apply Hp in Hin; lia].
Qed.

End AppFacts.

(** X19. A tap toggles the mode.  From every state the component can
    reach, a touch that starts and ends before its timer fires,
    followed by the click on the scene, flips [isTreeMode], leaves the
    photo and the UI as they were, clears the pending flag of a former
    long press and leaves no timer of its own behind. *)
Theorem tap_toggles_mode (events : list App.Event) :
  let st := App.run events App.initial in
  let st' := App.run [App.TouchStart; App.TouchEnd; App.SceneClick] st in
  App.isTreeMode st' = negb (App.isTreeMode st)
  /\ App.showPhoto st' = App.showPhoto st
  /\ App.showUI st' = App.showUI st
  /\ App.ignoreClickRef st' = false
  /\ App.timerRef st' = None
  /\ App.pendingTimers st' = App.pendingTimers st.
Proof.
  intros st st'. unfold st'.
  rewrite AppFacts.tap_from_fresh
    by (apply AppFacts.timersFresh_run, AppFacts.timersFresh_initial).
  cbn. repeat split; reflexivity.
Qed.

(** X20. A long press shows the photo and keeps the mode.  From every
    state the component can reach, a touch whose timer fires before the
    touch ends opens the photo; the click that follows the release is
    swallowed, the mode is as before, and the click after that one
    toggles the mode again. *)
Theorem long_press_shows_photo (events : list App.Event) :
  let st := App.run events App.initial in
  let st' := App.run [App.TouchStart; App.TimerFires (App.nextTimerId st);
                      App.TouchEnd; App.SceneClick] st in
  App.showPhoto st' = true
  /\ App.isTreeMode st' = App.isTreeMode st
  /\ App.pendingTimers st' = App.pendingTimers st
  /\ App.isTreeMode (App.toggleMode st') = negb (App.isTreeMode st).
Proof.
  intros st st'. unfold st'.
  rewrite AppFacts.long_press_from_fresh
    by (apply AppFacts.timersFresh_run, AppFacts.timersFresh_initial).
  cbn. repeat split; reflexivity.
Qed.

(** X21. A second touch that starts before the first ends overwrites
    [timerRef] without clearing the first timer.  After both touches
    have ended the first timer is still pending; when it fires, with no
    finger on the screen, the photo opens and the next click on the
    scene is swallowed. *)
Theorem second_touch_leaks_timer (events : list App.Event) :
  let st := App.run events App.initial in
  let st' := App.run [App.TouchStart; App.TouchStart;
                      App.TouchEnd; App.TouchEnd] st in
  let st'' := App.timerFires (App.nextTimerId st) st' in
  App.timerRef st' = None
  /\ In (App.nextTimerId st) (App.pendingTimers st')
  /\ App.showPhoto st'' = true
  /\ App.isTreeMode (App.toggleMode st'') = App.isTreeMode st.
Proof.
  intros st st' st''. unfold st'', st'.
  rewrite AppFacts.two_touches_from_fresh
    by (apply AppFacts.timersFresh_run, AppFacts.timersFresh_initial).
  unfold App.timerFires. cbn [App.pendingTimers].
  destruct (in_dec Nat.eq_dec (App.nextTimerId st)
              (App.nextTimerId st :: App.pendingTimers st)) as [_ | Hno];
    [| exfalso; apply Hno; left; reflexivity].
  cbn. repeat split; try reflexivity. left. reflexivity.
Qed.

(** X22. A double click with the mouse: the two clicks toggle the mode
    twice and the double click opens the photo, so the mode is as
    before under the photo. *)
Theorem double_click_keeps_mode (st : App.State) :
  App.ignoreClickRef st = false ->
  let st' := App.run [App.SceneClick; App.SceneClick; App.DoubleClick] st in
  App.isTreeMode st' = App.isTreeMode st /\ App.showPhoto st' = true.
Proof.
  destruct st as [tm ui ph tr lp ig pend next]. cbn. intros ->. cbn.
  rewrite Bool.negb_involutive. split; reflexivity.
Qed.

Example double_click_keeps_mode_witness :
  let st' := App.run [App.SceneClick; App.SceneClick; App.DoubleClick]
                     App.initial in
  App.isTreeMode st' = App.isTreeMode App.initial /\ App.showPhoto st' = true.
Proof. apply (double_click_keeps_mode App.initial). reflexivity. Defined.

(** X23. The mode changes on a click on the scene that is not
    swallowed and on nothing else; the photo opens on a double click or
    on a pending timer that fires and on nothing else. *)
Theorem only_clicks_change_mode (st : App.State) (e : App.Event) :
  (App.isTreeMode (App.step st e) <> App.isTreeMode st ->
   e = App.SceneClick /\ App.ignoreClickRef st = false)
  /\ (App.showPhoto st = false -> App.showPhoto (App.step st e) = true ->
      e = App.DoubleClick
      \/ exists id, e = App.TimerFires id /\ In id (App.pendingTimers st)).
Proof.
  split.
  - intros Hne. destruct e; cbn in Hne; try (exfalso; apply Hne; reflexivity).
    + unfold App.handleTouchEnd in Hne.
      destruct (App.timerRef st) as [id |]; [destruct (Nat.eqb id 0) |];
        exfalso; apply Hne; reflexivity.
    + unfold App.timerFires in Hne.
      destruct (in_dec Nat.eq_dec id (App.pendingTimers st));
        exfalso; apply Hne; reflexivity.
    + unfold App.toggleMode in Hne.
      destruct (App.ignoreClickRef st); [exfalso; apply Hne; reflexivity |].
      split; reflexivity.
  - intros Hoff Hon. destruct e; cbn in Hon; try congruence.
    + left. reflexivity.
    + unfold App.handleTouchEnd in Hon.
      destruct (App.timerRef st) as [id |]; [destruct (Nat.eqb id 0) |];
        cbn in Hon; congruence.
    + unfold App.timerFires in Hon.
      destruct (in_dec Nat.eq_dec id (App.pendingTimers st)) as [Hin | _];
        [| congruence].
      right. exists id. split; [reflexivity | exact Hin].
    + unfold App.toggleMode in Hon.
      destruct (App.ignoreClickRef st); cbn in Hon; congruence.
Qed.

Example only_clicks_change_mode_witness :
  App.SceneClick = App.SceneClick /\ App.ignoreClickRef App.initial = false.
Proof.
  apply (only_clicks_change_mode App.initial App.SceneClick).
  cbn. discriminate.
Defined.

Lemma mouse_only_never_ignores (events : list App.Event) (st : App.State) :
  forallb isMouseOnly events = true ->
  App.ignoreClickRef st = false ->
  App.ignoreClickRef (App.run events st) = false.
Proof.
  revert st. induction events as [| e events IH]; intros st Hm Hi; cbn.
  - exact Hi.
  - cbn in Hm. apply andb_prop in Hm. destruct Hm as [He Hm].
    apply IH; [exact Hm |].
    destruct e; try discriminate; cbn; try exact Hi.
    unfold App.toggleMode. rewrite Hi. reflexivity.
Qed.

(** X24. Used with the mouse alone, the component behaves on the mode
    and on the UI flag as the component of [src/App.tsx] does: after the
    same clicks the two have the same [isTreeMode] and [showUI]. *)
Theorem mouse_only_agrees_with_simple_app (events : list App.Event) :
  forallb isMouseOnly events = true ->
  App.isTreeMode (App.run events App.initial)
  = SimpleApp.isTreeMode (fold_left simpleStep events SimpleApp.initial)
  /\ App.showUI (App.run events App.initial)
     = SimpleApp.showUI (fold_left simpleStep events SimpleApp.initial).
Proof.
  assert (H : forall (st : App.State) (s : SimpleApp.State),
             forallb isMouseOnly events = true ->
             App.ignoreClickRef st = false ->
             App.isTreeMode st = SimpleApp.isTreeMode s ->
             App.showUI st = SimpleApp.showUI s ->
             App.isTreeMode (App.run events st)
             = SimpleApp.isTreeMode (fold_left simpleStep events s)
             /\ App.showUI (App.run events st)
                = SimpleApp.showUI (fold_left simpleStep events s)).
  { induction events as [| e events IH]; intros st s Hm Hi Ht Hu; cbn.
    - split; assumption.
    - cbn in Hm. apply andb_prop in Hm. destruct Hm as [He Hm].
      apply IH; try exact Hm;
        destruct e; try discriminate; cbn; try assumption;
        unfold App.toggleMode; rewrite ?Hi; cbn; congruence. }
  intros Hm. apply H; [exact Hm | reflexivity | reflexivity | reflexivity].
Qed.

Example mouse_only_agrees_with_simple_app_witness :
  App.isTreeMode (App.run [App.SceneClick; App.HideUIClick] App.initial)
  = SimpleApp.isTreeMode
      (fold_left simpleStep [App.SceneClick; App.HideUIClick] SimpleApp.initial)
  /\ App.showUI (App.run [App.SceneClick; App.HideUIClick] App.initial)
     = SimpleApp.showUI
         (fold_left simpleStep [App.SceneClick; App.HideUIClick]
                    SimpleApp.initial).
Proof.
  apply (mouse_only_agrees_with_simple_app [App.SceneClick; App.HideUIClick]).
  reflexivity.
Defined.
